(** * asciiWallpaper: a shallow embedding of the pixel-to-glyph pipeline

    The development follows the four core files of the repository:
    - [core/ascii_converter.py]  (ramp selection, [pixel_to_ascii],
                                  [image_to_ascii], [detect_direction]),
    - [core/color_handler.py]    (output mode, colour schemes, [apply_color]),
    - [core/image_processor.py]  ([calculate_ascii_dimensions]),
    - [core/output_formatter.py] ([to_string], [to_html]).

    Python [float] is IEEE 754 binary64.  Every arithmetic operation of the
    source on floats is modelled as the exact rational result rounded to the
    nearest binary64 value, ties to even, with gradual underflow and overflow
    to infinity ([Binary64.rnd]).  Finite values are carried as rationals, so
    the only thing dropped is the sign of zero, which none of the modelled
    code can observe (it never divides by a computed zero without raising
    and never prints a float).  [Reference] compares the model with the
    operations of the standard library's [SpecFloat].

    Not modelled: the raster renderer [to_image], and the collaborators of
    the core (image loading, the command line, the GUI). *)

From Stdlib Require Import ZArith QArith Qround Qabs Qpower Lia Lqa Bool List String Ascii.
From Stdlib Require SpecFloat.
From stdpp Require Import gmap strings list pretty.

(** ** Python exceptions and the result monad *)

Inductive exn : Set :=
| ZeroDivisionError
| OverflowError
| ValueError
| TypeError
| IndexError.

Inductive res (A : Type) : Type :=
| Ok (a : A)
| Raise (e : exn).
Arguments Ok {A} a.
Arguments Raise {A} e.

#[global] Instance res_ret : MRet res := fun A a => Ok a.
#[global] Instance res_bind : MBind res := fun A B f m =>
  match m with
  | Ok a => f a
  | Raise e => Raise e
  end.

(** ** IEEE 754 binary64 *)

Module Binary64.
Local Open Scope Q_scope.

Inductive float : Type :=
| Fin (q : Q)
| PInf
| NInf
| NaN.

Definition pow2 (e : Z) : Q := Qpower 2 e.

(** [ilog2 x] is the binade of a positive [x]: [2^(ilog2 x) <= x < 2^(ilog2 x + 1)]. *)
Definition ilog2 (x : Q) : Z :=
  let e0 := (Z.log2 (Qnum x) - Z.log2 (Zpos (Qden x)))%Z in
  if Qle_bool (pow2 e0) x then e0 else (e0 - 1)%Z.

(** Round a rational to the nearest integer, ties to the even one. *)
Definition rhe (x : Q) : Z :=
  let f := Qfloor x in
  match Qcompare (x - inject_Z f) (1 # 2) with
  | Lt => f
  | Gt => (f + 1)%Z
  | Eq => if Z.even f then f else (f + 1)%Z
  end.

(** Exponent of the unit in the last place: 53 significant bits, and
    never below [2^-1074] (subnormal numbers). *)
Definition ulp_exp (x : Q) : Z := Z.max (ilog2 x - 52) (-1074).

Definition round_pos (x : Q) : Q :=
  let u := pow2 (ulp_exp x) in inject_Z (rhe (x / u)) * u.

Definition round_fin (x : Q) : Q :=
  match Qcompare x 0 with
  | Eq => 0
  | Gt => round_pos x
  | Lt => - round_pos (- x)
  end.

(** A rounded magnitude of [2^1024] or more is an overflow. *)
Definition classify (r : Q) : float :=
  if Qle_bool (pow2 1024) r then PInf
  else if Qle_bool r (- pow2 1024) then NInf
  else Fin (Qred r).

Definition rnd (x : Q) : float := classify (round_fin x).

(** A decimal literal of the source, [n/d], and an integer operand. *)
Definition lit (n : Z) (d : positive) : float := rnd (n # d).
Definition of_Z (n : Z) : float := rnd (inject_Z n).

Definition inf_of_sign (c : comparison) : float :=
  match c with
  | Gt => PInf
  | Lt => NInf
  | Eq => NaN
  end.

Definition fneg (a : float) : float :=
  match a with
  | Fin q => Fin (- q)
  | PInf => NInf
  | NInf => PInf
  | NaN => NaN
  end.

Definition fadd (a b : float) : float :=
  match a, b with
  | NaN, _ | _, NaN => NaN
  | PInf, NInf | NInf, PInf => NaN
  | PInf, _ | _, PInf => PInf
  | NInf, _ | _, NInf => NInf
  | Fin x, Fin y => rnd (x + y)
  end.

Definition fsub (a b : float) : float := fadd a (fneg b).

Definition fmul (a b : float) : float :=
  match a, b with
  | NaN, _ | _, NaN => NaN
  | Fin x, Fin y => rnd (x * y)
  | Fin x, PInf | PInf, Fin x => inf_of_sign (x ?= 0)
  | Fin x, NInf | NInf, Fin x => inf_of_sign (0 ?= x)
  | PInf, PInf | NInf, NInf => PInf
  | PInf, NInf | NInf, PInf => NInf
  end.

(** IEEE division; a zero divisor is taken as [+0]. Python's own [/]
    raises before reaching that case, see [py_truediv]. *)
Definition fdiv (a b : float) : float :=
  match a, b with
  | NaN, _ | _, NaN => NaN
  | Fin x, Fin y => if Qeq_bool y 0 then inf_of_sign (x ?= 0) else rnd (x / y)
  | Fin _, PInf | Fin _, NInf => Fin 0
  | PInf, Fin y => if Qle_bool 0 y then PInf else NInf
  | NInf, Fin y => if Qle_bool 0 y then NInf else PInf
  | _, _ => NaN
  end.

(** Comparisons: anything against [NaN] is false. *)
Definition flt (a b : float) : bool :=
  match a, b with
  | NaN, _ | _, NaN => false
  | Fin x, Fin y => negb (Qle_bool y x)
  | NInf, Fin _ | NInf, PInf | Fin _, PInf => true
  | _, _ => false
  end.

Definition fle (a b : float) : bool :=
  match a, b with
  | NaN, _ | _, NaN => false
  | Fin x, Fin y => Qle_bool x y
  | NInf, _ | _, PInf => true
  | _, _ => false
  end.

Definition is_zero (a : float) : bool :=
  match a with
  | Fin q => Qeq_bool q 0
  | _ => false
  end.

(** Truncation toward zero. *)
Definition Qtrunc (q : Q) : Z := if Qle_bool 0 q then Qfloor q else Qceiling q.

(** Error analysis: one rounding of a normal number moves it by a factor of
    at most [theta]; [close k x y] says that the positive [x] and [y] are
    within [k] such factors of each other, and [within a b x] that [x] lies
    between two powers of two. *)
Definition theta : Q := 1 + pow2 (-52).

Definition close (k : nat) (x y : Q) : Prop :=
  0 < x /\ 0 < y /\ x <= y * theta ^ Z.of_nat k /\ y <= x * theta ^ Z.of_nat k.


(** Finite and positive; finite and not negative. *)
Definition pos_fin (c : float) : bool := flt (Fin 0) c && flt c PInf.
Definition nonneg_fin (c : float) : bool := fle (Fin 0) c && flt c PInf.

End Binary64.
Export Binary64.

(** ** The reference operations of the standard library

    [SpecFloat] defines the IEEE 754 operations on sign, mantissa and
    exponent. The model above is compared with it, at precision 53 and
    maximal exponent 1024, on the computations the claims rest on. *)

Module Reference.
Import SpecFloat.

Definition of_spec_float (x : spec_float) : float :=
  match x with
  | S754_zero _ => Fin 0
  | S754_infinity false => PInf
  | S754_infinity true => NInf
  | S754_nan => NaN
  | S754_finite s m e =>
      Fin (Qred ((if s then - inject_Z (Zpos m) else inject_Z (Zpos m)) * pow2 e))
  end.

Definition sf_Z (n : Z) : spec_float := binary_normalize 53 1024 n 0 false.
Definition sf_add : spec_float -> spec_float -> spec_float := SFadd 53 1024.
Definition sf_sub : spec_float -> spec_float -> spec_float := SFsub 53 1024.
Definition sf_mul : spec_float -> spec_float -> spec_float := SFmul 53 1024.
Definition sf_div : spec_float -> spec_float -> spec_float := SFdiv 53 1024.
Definition sf_lit (n d : Z) : spec_float := sf_div (sf_Z n) (sf_Z d).

(** Equality of values. *)
Definition feq (a b : float) : bool :=
  match a, b with
  | Fin x, Fin y => Qeq_bool x y
  | PInf, PInf | NInf, NInf | NaN, NaN => true
  | _, _ => false
  end.

(** The luma sum of [_to_grayscale], in both. *)
Definition sf_luma (r g b : Z) : spec_float :=
  sf_add (sf_add (sf_mul (sf_lit 299 1000) (sf_Z r)) (sf_mul (sf_lit 587 1000) (sf_Z g)))
         (sf_mul (sf_lit 114 1000) (sf_Z b)).

Definition luma (r g b : Z) : float :=
  fadd (fadd (fmul (lit 299 1000) (of_Z r)) (fmul (lit 587 1000) (of_Z g)))
       (fmul (lit 114 1000) (of_Z b)).

(** The corrected row count of [calculate_ascii_dimensions] when the
    columns are kept, in both. *)
Definition sf_rows (W H font cols : Z) : spec_float :=
  sf_mul (sf_div (sf_Z cols) (sf_div (sf_Z W) (sf_Z H)))
         (sf_div (sf_mul (sf_Z font) (sf_lit 6 10)) (sf_Z font)).

Definition rows (W H font cols : Z) : float :=
  fmul (fdiv (of_Z cols) (fdiv (of_Z W) (of_Z H)))
       (fdiv (fmul (of_Z font) (lit 6 10)) (of_Z font)).

(** The scaled intensity of [pixel_to_ascii], not inverted, in both. *)
Definition sf_scaled (i n : Z) (boost : spec_float) : spec_float :=
  sf_mul (sf_div (sf_mul (sf_Z i) boost) (sf_Z 255)) (sf_Z (n - 1)).

(** The 256 values of a channel. *)
Definition levels : list Z := Z.of_nat <$> seq 0 256.

End Reference.

(** ** Python arithmetic on top of binary64 *)

(** [int(x)] for a float [x]. *)
Definition py_int (a : float) : res Z :=
  match a with
  | Fin q => Ok (Qtrunc q)
  | PInf | NInf => Raise OverflowError
  | NaN => Raise ValueError
  end.

(** The implicit [int -> float] conversion of a mixed operation. *)
Definition py_float (n : Z) : res float :=
  match of_Z n with
  | Fin q => Ok (Fin q)
  | _ => Raise OverflowError
  end.

(** [a / b] on Python floats. *)
Definition py_truediv (a b : float) : res float :=
  if is_zero b then Raise ZeroDivisionError else Ok (fdiv a b).

(** [n / m] on Python ints: the exact quotient, correctly rounded. *)
Definition py_int_truediv (n m : Z) : res float :=
  if (m =? 0)%Z then Raise ZeroDivisionError
  else match rnd (inject_Z n / inject_Z m) with
       | Fin q => Ok (Fin q)
       | _ => Raise OverflowError
       end.

(** [min(255, x)]: the builtin keeps its first argument unless [x < 255]. *)
Definition py_min_255 (x : float) : float :=
  if flt x (of_Z 255) then x else of_Z 255.

(** ** Logging: every method reports to a logger; the records produced by a
    call are returned next to its result. *)

Inductive level : Set := DEBUG | INFO | WARNING | ERROR.
Definition log_entry : Type := level * string.

(** ** Strings *)

(** A Python [str] used as a ramp is a sequence of characters; a character
    is kept as the string of its UTF-8 bytes, so that [len] counts characters. *)
Definition glyph : Type := string.
Definition pystr : Type := list glyph.

Fixpoint chars (s : string) : pystr :=
  match s with
  | EmptyString => []
  | String c s' => String c EmptyString :: chars s'
  end.

Definition show (s : pystr) : string := String.concat EmptyString s.

Definition ascii_lower (c : ascii) : ascii :=
  let n := nat_of_ascii c in
  if (65 <=? n)%nat && (n <=? 90)%nat then ascii_of_nat (n + 32) else c.

(** [str.lower] on the ASCII range. *)
Fixpoint lower (s : string) : string :=
  match s with
  | EmptyString => EmptyString
  | String c s' => String (ascii_lower c) (lower s')
  end.

Definition repr_opt (o : option string) : string := default "None"%string o.

(** [try: ... except Exception: ...]: the value of the body when it returns;
    every exception is absorbed by the handler. *)
Definition caught {A : Type} (m : res A) : option A :=
  match m with
  | Ok a => Some a
  | Raise _ => None
  end.

(** [if xs:] on a sequence that may be [None]. *)
Definition truthy {A : Type} (xs : option (list A)) : bool :=
  match xs with
  | Some (_ :: _) => true
  | _ => false
  end.

(** ** core/color_handler.py *)

Module ColorHandler.
Local Open Scope Z_scope.

Definition rgb : Type := Z * Z * Z.
Definition scheme : Type := Z -> Z -> Z -> res rgb.

Definition _pastelize (r g b : Z) : res rgb :=
  let chan (c : Z) : res Z :=
    c' ← py_float c;
    py_int (fadd (fmul c' (lit 7 10)) (fmul (of_Z 255) (lit 3 10))) in
  r' ← chan r; g' ← chan g; b' ← chan b; mret (r', g', b').

Definition _neonize (r g b : Z) : res rgb :=
  let factor := lit 15 10 in
  let max_val := Z.max (Z.max r g) b in
  if max_val =? 0 then mret (0, 0, 0)
  else
    q ← py_int_truediv 255 max_val;
    let scaling := if flt factor q then factor else q in
    let chan (c : Z) : res Z :=
      c' ← py_float c; i ← py_int (fmul c' scaling); mret (Z.min i 255) in
    r' ← chan r; g' ← chan g; b' ← chan b; mret (r', g', b').

(** [gray = int(0.299 * r + 0.587 * g + 0.114 * b)] *)
Definition _to_grayscale (r g b : Z) : res rgb :=
  r' ← py_float r; g' ← py_float g; b' ← py_float b;
  gray ← py_int (fadd (fadd (fmul (lit 299 1000) r') (fmul (lit 587 1000) g'))
                      (fmul (lit 114 1000) b'));
  mret (gray, gray, gray).

Record t : Type := {
  output_mode : string;
  color_schemes : gmap string scheme;
  active_scheme : string
}.

Definition init (output_mode : string) : t :=
  {| output_mode := output_mode;
     color_schemes :=
       list_to_map
         [ ("full_rgb"%string, (fun r g b => mret (r, g, b)) : scheme);
           ("pastel"%string, _pastelize);
           ("neon"%string, _neonize);
           ("grayscale"%string, _to_grayscale) ];
     active_scheme := "full_rgb" |}.

Definition format_to_mode : gmap string string :=
  list_to_map
    [ ("png", "image"); ("jpg", "image"); ("jpeg", "image"); ("bmp", "image");
      ("gif", "image"); ("txt", "terminal"); ("text", "terminal");
      ("html", "html"); ("htm", "html") ]%string.

Definition valid_modes : list string := ["terminal"; "html"; "image"]%string.

Definition set_output_mode (self : t) (mode : string) : bool * t * list log_entry :=
  let '(mode, log1) :=
    match format_to_mode !! lower mode with
    | Some actual_mode =>
        (actual_mode,
         [(INFO, "Mapping format '" +:+ mode +:+ "' to output mode '" +:+ actual_mode +:+ "'")])
    | None => (mode, [])
    end in
  if bool_decide (lower mode ∈ valid_modes) then
    (true,
     {| output_mode := lower mode;
        color_schemes := color_schemes self;
        active_scheme := active_scheme self |},
     log1 ++ [(INFO, "Setting output mode to: " +:+ mode)])
  else
    (false, self, log1 ++ [(WARNING, "Invalid output mode: " +:+ mode)]).

Definition set_color_scheme (self : t) (scheme_name : string) : bool * t * list log_entry :=
  match color_schemes self !! scheme_name with
  | Some _ =>
      (true,
       {| output_mode := output_mode self;
          color_schemes := color_schemes self;
          active_scheme := scheme_name |},
       [(INFO, "Setting color scheme to: " +:+ scheme_name)])
  | None =>
      (false, self, [(WARNING, "Unknown color scheme: " +:+ scheme_name)])
  end.

(** *** apply_color *)

(** What [apply_color] returns: a string, or in image mode the tuple
    [(char, (r, g, b), bg_color)]. *)
Inductive cell : Type :=
| Plain (s : string)
| Tuple (char : string) (fg : rgb) (bg_color : option (list Z)).

Definition esc : string := String "027"%char EmptyString.
Definition dquote : string := String "034"%char EmptyString.

(** [br, bg, bb = bg_color] *)
Definition unpack3 (bg_color : option (list Z)) : res rgb :=
  match bg_color with
  | Some [br; bg; bb] => mret (br, bg, bb)
  | Some _ => Raise ValueError
  | None => Raise TypeError
  end.

Definition ansi (layer : string) (c : rgb) : string :=
  let '(r, g, b) := c in
  esc +:+ "[" +:+ layer +:+ ";2;" +:+ pretty r +:+ ";" +:+ pretty g +:+ ";" +:+ pretty b +:+ "m".

Definition css_rgb (c : rgb) : string :=
  let '(r, g, b) := c in
  "rgb(" +:+ pretty r +:+ "," +:+ pretty g +:+ "," +:+ pretty b +:+ ")".

(** Lines 87-119. The body of the [try] is in the option monad: a missing
    scheme, a scheme that raises and a background that does not unpack into
    three values all end in the handler, which returns the bare character.
    The log records are left out. *)
Definition apply_color (self : t) (char : string) (rgb : rgb) (bg_color : option (list Z))
  : cell :=
  let '(r, g, b) := rgb in
  let body : option cell :=
    scheme ← color_schemes self !! active_scheme self;
    fg ← caught (scheme r g b);
    if bool_decide (output_mode self = "terminal") then
      let fg_code := ansi "38" fg in
      bg_code ← (if truthy bg_color
                 then bg ← caught (unpack3 bg_color); mret (ansi "48" bg)
                 else mret EmptyString);
      let reset := esc +:+ "[0m" in
      mret (Plain (fg_code +:+ bg_code +:+ char +:+ reset))
    else if bool_decide (output_mode self = "html") then
      bg_style ← (if truthy bg_color
                  then bg ← caught (unpack3 bg_color);
                       mret ("background-color:" +:+ css_rgb bg +:+ ";")
                  else mret EmptyString);
      mret (Plain ("<span style=" +:+ dquote +:+ "color:" +:+ css_rgb fg +:+ ";" +:+ bg_style
                     +:+ dquote +:+ ">" +:+ char +:+ "</span>"))
    else if bool_decide (output_mode self = "image") then
      mret (Tuple char fg bg_color)
    else
      mret (Plain char) in
  default (Plain char) body.

(** A handler whose active scheme is registered and whose mode is one of
    the three that [apply_color] knows. *)
Definition consistent (self : t) : Prop :=
  is_Some (color_schemes self !! active_scheme self) /\ output_mode self ∈ valid_modes.

(** A colour of three bytes. *)
Definition valid_rgb (c : rgb) : Prop :=
  let '(r, g, b) := c in 0 <= r <= 255 /\ 0 <= g <= 255 /\ 0 <= b <= 255.

End ColorHandler.

(** ** numpy arrays and slices *)

(** An image buffer: [h x w] intensities, or [h x w x c] channel values. *)
Inductive ndarray : Type :=
| Gray2D (a : list (list Z))
| Color3D (a : list (list (list Z))).

Definition len {A : Type} (l : list A) : Z := Z.of_nat (length l).

(** A slice bound of Python: a negative bound counts from the end, and
    every bound is clipped to the length. *)
Definition slice_index (n i : Z) : Z :=
  if (i <? 0)%Z then Z.max 0 (i + n) else Z.min i n.

(** [l[lo:hi]] *)
Definition py_slice {A : Type} (l : list A) (lo hi : Z) : list A :=
  let lo' := slice_index (len l) lo in
  let hi' := slice_index (len l) hi in
  take (Z.to_nat (hi' - lo')) (drop (Z.to_nat lo') l).

(** [a[y0:y1, x0:x1]] on the first two axes. *)
Definition slice2 {A : Type} (a : list (list A)) (y0 y1 x0 x1 : Z) : list (list A) :=
  map (fun row => py_slice row x0 x1) (py_slice a y0 y1).

Definition zsum (l : list Z) : Z := foldr Z.add 0%Z l.

(** [astype(np.uint8)] of a float64. *)
Definition cast_uint8 (a : float) : Z :=
  match a with
  | Fin q => (Qtrunc q mod 256)%Z
  | _ => 0%Z
  end.

(** [np.mean(..., axis=2).astype(np.uint8)] at one pixel: the channel sum is
    accumulated in float64 (exact for 8-bit channels) and divided by the
    channel count. *)
Definition mean_uint8 (px : list Z) : Z :=
  cast_uint8 (fdiv (of_Z (zsum px)) (of_Z (len px))).

(** [np.sum(w * k)] for a 3x3 window and a 3x3 kernel: the product of the
    uint8 window and the int64 kernel is taken in int64, which 8-bit
    intensities cannot overflow. *)
Definition mul_sum (w k : list (list Z)) : Z :=
  zsum (zip_with (fun wr kr => zsum (zip_with Z.mul wr kr)) w k).

(** ** core/ascii_converter.py *)

Module AsciiConverter.
Local Open Scope Z_scope.

Definition dq : glyph := String "034"%char EmptyString.

Definition char_sets_init : gmap string pystr :=
  list_to_map
    [ ("standard"%string, chars "@%#*+=-:. ");
      ("bright"%string, chars " .:-=+*#%@");
      ("detailed"%string,
        chars "$@B%8&WM#*oahkbdpqwmZO0QLCJUYXzcvunxrjft/\|()1{}[]?-_+~<>i!lI;:,"
          ++ [dq] ++ chars "^`'. ");
      ("simple"%string, chars "#@%*+=-:. ");
      ("blocks"%string, ["█"; "▓"; "▒"; "░"; " "]%string);
      ("minimal"%string, chars "@:. ");
      ("manga"%string,
        ["█"; "▓"; "▒"; "░"]%string ++ chars "@%#*/\()[]{}=_-+~<>!;:,. ");
      ("diagonal"%string,
        chars "\|/" ++ ["─"; "│"; "┌"; "┐"; "└"; "┘"; "┼"; "▄"; "▀"; "█"; "▓"; "▒"; "░"; " "]%string);
      ("contrast"%string, chars "@%#*+=-:. ") ].

Record t : Type := {
  char_sets : gmap string pystr;
  char_set : pystr;
  char_set_name : string;
  color_handler : ColorHandler.t;
  directional_mode : bool
}.

Definition standard : pystr := chars "@%#*+=-:. ".

Definition init (char_set : option pystr) : t :=
  {| char_sets := char_sets_init;
     char_set := match char_set with
                 | Some (c :: cs) => c :: cs
                 | _ => standard
                 end;
     char_set_name := "standard";
     color_handler := ColorHandler.init "terminal";
     directional_mode := false |}.

Definition with_char_set (self : t) (cs : pystr) (name : string) : t :=
  {| char_sets := char_sets self;
     char_set := cs;
     char_set_name := name;
     color_handler := color_handler self;
     directional_mode := directional_mode self |}.

Definition set_char_set (self : t) (set_name : option string) (custom_chars : option pystr)
  : pystr * t * list log_entry :=
  match custom_chars with
  | Some (c :: cs) =>
      let custom := c :: cs in
      (custom, with_char_set self custom "custom",
       [(INFO, "Setting custom character set with " +:+ pretty (length custom) +:+ " characters");
        (DEBUG, "Custom characters: '" +:+ show custom +:+ "'")])
  | _ =>
      match set_name ≫= (fun name => (fun cs => (name, cs)) <$> char_sets self !! name) with
      | Some (name, cs) =>
          (cs, with_char_set self cs name,
           [(INFO, "Setting character set to '" +:+ name +:+ "' with "
                     +:+ pretty (length cs) +:+ " characters")])
      | None =>
          (char_set self, self,
           [(WARNING, "Unknown character set '" +:+ repr_opt set_name +:+ "', keeping current set")])
      end
  end.

(** *** detect_direction *)

Inductive direction : Set :=
| d_none | d_e | d_ne | d_n | d_nw | d_w | d_sw | d_s | d_se.

Definition h_kernel : list (list Z) := [[-1; 0; 1]; [-2; 0; 2]; [-1; 0; 1]].
Definition v_kernel : list (list Z) := [[-1; -2; -1]; [0; 0; 0]; [1; 2; 1]].

Definition shape_hw (img : ndarray) : Z * Z :=
  match img with
  | Gray2D a => (len a, len (default [] (head a)))
  | Color3D a => (len a, len (default [] (head a)))
  end.

(** The clipped neighbourhood, reduced to one channel. *)
Definition window_gray (img : ndarray) (x y window_size : Z) : list (list Z) :=
  let '(h, w) := shape_hw img in
  let x_min := Z.max 0 (x - window_size / 2) in
  let x_max := Z.min (w - 1) (x + window_size / 2) in
  let y_min := Z.max 0 (y - window_size / 2) in
  let y_max := Z.min (h - 1) (y + window_size / 2) in
  match img with
  | Gray2D a => slice2 a y_min (y_max + 1) x_min (x_max + 1)
  | Color3D a => map (map mean_uint8) (slice2 a y_min (y_max + 1) x_min (x_max + 1))
  end.

Definition np_pi : float := lit 3141592653589793 1000000000000000.

Section Direction.
(** [np.arctan2] on two integers, from numpy. *)
Variable arctan2 : Z -> Z -> float.

Definition bucket (gx gy : Z) : direction :=
  let angle := fdiv (fmul (arctan2 gy gx) (of_Z 180)) np_pi in
  if fle (lit 225 10) angle && flt angle (lit 675 10) then d_ne
  else if fle (lit 675 10) angle && flt angle (lit 1125 10) then d_n
  else if fle (lit 1125 10) angle && flt angle (lit 1575 10) then d_nw
  else if (fle (lit 1575 10) angle && fle angle (of_Z 180))
          || (fle (of_Z (-180)) angle && flt angle (lit (-1575) 10)) then d_w
  else if fle (lit (-1575) 10) angle && flt angle (lit (-1125) 10) then d_sw
  else if fle (lit (-1125) 10) angle && flt angle (lit (-675) 10) then d_s
  else if fle (lit (-675) 10) angle && flt angle (lit (-225) 10) then d_se
  else d_e.

(** The result is [None] of Python for an absent buffer, else a direction. *)
Definition detect_direction (image_array : option ndarray) (x y window_size : Z)
  : res (option direction) :=
  match image_array with
  | None => mret None
  | Some img =>
      let wg := window_gray img x y window_size in
      let rows := len wg in
      let cols := len (default [] (head wg)) in
      if (rows <? 3) || (cols <? 3) then mret (Some d_none)
      else if negb ((rows =? 3) && (cols =? 3)) then Raise ValueError
      else
        let gx := Z.abs (mul_sum wg h_kernel) in
        let gy := Z.abs (mul_sum wg v_kernel) in
        if (gx <? 20) && (gy <? 20) then mret (Some d_none)
        else mret (Some (bucket gx gy))
  end.

(** *** pixel_to_ascii *)

Definition rgb_of_pixel (pixel : list Z) : res (Z * Z * Z) :=
  if 3 <=? len pixel then
    match pixel with
    | r :: g :: b :: _ => mret (r, g, b)
    | _ => Raise IndexError
    end
  else
    match pixel with
    | v :: _ => mret (v, v, v)
    | [] => Raise IndexError
    end.

(** The float handed to [int]: the adjusted intensity, or its complement,
    as a fraction of 255 scaled by the last ramp index [m]. *)
Definition scaled (adjusted m : float) (invert : bool) : float :=
  if invert then fmul (fdiv (fsub (of_Z 255) adjusted) (of_Z 255)) m
  else fmul (fdiv adjusted (of_Z 255)) m.

(** Lines 64-75: the index into a ramp of [n] characters, before it is
    clamped. The pixel comes from a uint8 buffer and the boost is a float,
    so the product and all that follows is computed in binary64. *)
Definition raw_index (n : Z) (intensity : Z) (invert : bool) (brightness_boost : float)
  : res Z :=
  i ← py_float intensity;
  let adjusted_intensity := py_min_255 (fmul i brightness_boost) in
  m ← py_float (n - 1);
  if invert then
    py_int (fmul (fdiv (fsub (of_Z 255) adjusted_intensity) (of_Z 255)) m)
  else
    py_int (fmul (fdiv adjusted_intensity (of_Z 255)) m).

(** Lines 58-78: the channels, their maximum, and the clamped index. *)
Definition char_index (n : Z) (pixel : list Z) (invert : bool) (brightness_boost : float)
  : res Z :=
  '(r, g, b) ← rgb_of_pixel pixel;
  let intensity := Z.max (Z.max r g) b in
  char_index ← raw_index n intensity invert brightness_boost;
  mret (Z.max 0 (Z.min char_index (n - 1))).

(** A pixel whose channels are 8-bit values. *)
Definition valid_pixel (pixel : list Z) : Prop := Forall (fun c => 0 <= c <= 255) pixel.

(** [max(r, g, b)] of a pixel. *)
Definition intensity (pixel : list Z) : res Z :=
  '(r, g, b) ← rgb_of_pixel pixel;
  mret (Z.max (Z.max r g) b).

Definition directional_char (d : option direction) (char : glyph) : glyph :=
  match d with
  | Some d_ne => "/"
  | Some d_nw => "\"
  | Some d_n | Some d_s => "|"
  | Some d_e | Some d_w => "-"
  | Some d_se => "\"
  | Some d_sw => "/"
  | _ => char
  end%string.

(** Lines 57-115 with [colored=False]: the glyph chosen for a pixel, which
    [apply_color] would wrap in colour codes; any exception of the body gives
    the fallback character. *)
Definition pixel_to_ascii (self : t) (pixel : list Z) (x y : Z)
    (image_array : option ndarray) (invert : bool) (brightness_boost : float) : glyph :=
  let body : res glyph :=
    char_index ← char_index (len (char_set self)) pixel invert brightness_boost;
    match char_set self !! Z.to_nat char_index with
    | None => Raise IndexError
    | Some char =>
        if directional_mode self && bool_decide (is_Some image_array) then
          match detect_direction image_array x y 3 with
          | Ok direction =>
              if bool_decide (char_set_name self ∈ ["manga"; "diagonal"]%string)
              then mret (directional_char direction char)
              else mret char
          | Raise _ => mret char
          end
        else mret char
    end in
  match body with
  | Ok char => char
  | Raise _ => " "%string
  end.

End Direction.

(** What is assumed of [np.arctan2]: on two non-negative arguments the
    angle lies between 0 and the binary64 value of pi/2. *)
Definition half_pi : float := lit 15707963267948966 10000000000000000.

Definition arctan2_range (arctan2 : Z -> Z -> float) : Prop :=
  forall gy gx : Z, 0 <= gy -> 0 <= gx ->
    fle (of_Z 0) (arctan2 gy gx) = true /\ fle (arctan2 gy gx) half_pi = true.

(** A coarse arctangent with that range: exact on the axes, one value per
    octant elsewhere. *)
Definition arctan2_coarse (gy gx : Z) : float :=
  if gy =? 0 then of_Z 0
  else if gx =? 0 then half_pi
  else if gy <? gx then lit 4 10
  else lit 11 10.

(** The directions that C6 says can be returned. *)
Definition reachable (d : direction) : Prop :=
  d = d_none \/ d = d_e \/ d = d_ne \/ d = d_n.

(** Two 3x3 buffers: one intensity everywhere, and a vertical edge. *)
Definition uniform_image : ndarray :=
  Color3D (replicate 3 (replicate 3 [7; 7; 7])).
Definition edge_image : ndarray :=
  Gray2D (replicate 3 [0; 0; 255]).

(** *** The index as the specification words it

    [adjusted = clamp(intensity * brightness_boost, 0, 255)], then the scaled
    value is made an integer by [rounding] and clamped to the ramp. The
    specification asks for [round]; the source uses [int]. *)
Definition clamp (x lo hi : float) : float :=
  if flt x lo then lo else if flt x hi then x else hi.

Definition spec_index (rounding : float -> res Z) (n : Z) (pixel : list Z) (invert : bool)
    (brightness_boost : float) : res Z :=
  '(r, g, b) ← rgb_of_pixel pixel;
  i ← py_float (Z.max (Z.max r g) b);
  let adjusted := clamp (fmul i brightness_boost) (of_Z 0) (of_Z 255) in
  m ← py_float (n - 1);
  index ← rounding (scaled adjusted m invert);
  mret (Z.max 0 (Z.min index (n - 1))).

(** [round(x)] of Python: to the nearest integer, ties to even. *)
Definition py_round (a : float) : res Z :=
  match a with
  | Fin q => Ok (rhe q)
  | PInf | NInf => Raise OverflowError
  | NaN => Raise ValueError
  end.

(** *** set_directional_mode, pixel_to_ascii with colour, image_to_ascii *)

Definition set_directional_mode (self : t) (enabled : bool) : bool * t * list log_entry :=
  (true,
   {| char_sets := char_sets self;
      char_set := char_set self;
      char_set_name := char_set_name self;
      color_handler := color_handler self;
      directional_mode := enabled |},
   [(INFO, "Directional character selection "
             +:+ (if enabled then "enabled" else "disabled"))]%string).

(** [image_array[y, x]]: the channel vector of a pixel of a 3-D buffer, a
    scalar of a 2-D one. *)
Inductive pixel_value : Type :=
| Scalar (v : Z)
| Channels (px : list Z).

Definition item (image_array : ndarray) (y x : nat) : res pixel_value :=
  match image_array with
  | Gray2D a =>
      match a !! y ≫= (fun row => row !! x) with
      | Some v => mret (Scalar v)
      | None => Raise IndexError
      end
  | Color3D a =>
      match a !! y ≫= (fun row => row !! x) with
      | Some px => mret (Channels px)
      | None => Raise IndexError
      end
  end.

(** A row of the result: a string, or in image mode a list of cells. *)
Inductive row : Type :=
| RowStr (s : string)
| RowList (l : list ColorHandler.cell).

(** [ascii_row += result] over the results of a row; a tuple cannot be
    added to a string. *)
Fixpoint add_results (ascii_row : string) (results : list ColorHandler.cell) : res string :=
  match results with
  | [] => mret ascii_row
  | ColorHandler.Plain s :: results => add_results (ascii_row +:+ s) results
  | ColorHandler.Tuple _ _ _ :: _ => Raise TypeError
  end.

Section Conversion.
Variable arctan2 : Z -> Z -> float.

(** Lines 55-115 with all their parameters. [len] of a numpy scalar raises,
    as does every step that [char_index] models; the handler returns the
    blank. [apply_color] has a handler of its own. *)
Definition pixel_to_cell (self : t) (pixel : pixel_value) (x y : Z)
    (image_array : option ndarray) (colored : bool) (bg_color : option (list Z))
    (invert : bool) (brightness_boost : float) : ColorHandler.cell :=
  let body : res ColorHandler.cell :=
    match pixel with
    | Scalar _ => Raise TypeError
    | Channels pixel =>
        '(r, g, b) ← rgb_of_pixel pixel;
        char_index ← char_index (len (char_set self)) pixel invert brightness_boost;
        match char_set self !! Z.to_nat char_index with
        | None => Raise IndexError
        | Some char =>
            let char :=
              if directional_mode self && bool_decide (is_Some image_array) then
                match detect_direction arctan2 image_array x y 3 with
                | Ok direction =>
                    if bool_decide (char_set_name self ∈ ["manga"; "diagonal"]%string)
                    then directional_char direction char
                    else char
                | Raise _ => char
                end
              else char in
            if colored
            then mret (ColorHandler.apply_color (color_handler self) char (r, g, b) bg_color)
            else mret (ColorHandler.Plain char)
        end
    end in
  default (ColorHandler.Plain " ") (caught body).

(** Lines 118-169. Every exception of the loop ends in the one handler,
    which returns the empty list, so the results of a row are collected
    before they are added up. The timers and log records are left out. *)
Definition image_to_ascii (self : t) (image_array : option ndarray) (colored : bool)
    (bg_color : option (list Z)) (invert : bool) (brightness_boost : float) : list row :=
  match image_array with
  | None => []
  | Some img =>
      let '(height, width) := shape_hw img in
      let is_image_mode :=
        bool_decide (ColorHandler.output_mode (color_handler self) = "image"%string) in
      let body : res (list row) :=
        mapM (fun y : nat =>
                results ← mapM (fun x : nat =>
                                  pixel ← item img y x;
                                  mret (pixel_to_cell self pixel (Z.of_nat x) (Z.of_nat y)
                                          (Some img) colored bg_color invert brightness_boost))
                               (seq 0 (Z.to_nat width));
                if is_image_mode then mret (RowList results)
                else ascii_row ← add_results EmptyString results; mret (RowStr ascii_row))
             (seq 0 (Z.to_nat height)) in
      default [] (caught body)
  end.

End Conversion.

(** A buffer of [h] rows of [w] pixels each, as numpy keeps it. *)
Definition rectangular {A : Type} (a : list (list A)) (h w : nat) : Prop :=
  length a = h /\ Forall (fun row => length row = w) a.

End AsciiConverter.

(** ** core/image_processor.py *)

Module ImageProcessor.
Local Open Scope Z_scope.

(** The target sizes are pixel counts (or absent), the font size a float, as
    the caller passes [font_size / density_factor]; for an integer font size
    the source computes the same values as long as they stay below 2^53.
    [None] stands for the pair [(None, None)] of the source. *)
Definition calculate_ascii_dimensions (output_width output_height : option Z)
    (font_size : float) (char_aspect_correction : bool) : res (option (Z * Z)) :=
  match output_width, output_height with
  | Some output_width, Some output_height =>
      if (output_width =? 0) || (output_height =? 0) then mret None
      else
        let char_width := fmul font_size (lit 6 10) in
        let char_height := font_size in
        w ← py_float output_width;
        raw_cols ← py_truediv w char_width ≫= py_int;
        h ← py_float output_height;
        raw_rows ← py_truediv h char_height ≫= py_int;
        target_aspect_ratio ← py_int_truediv output_width output_height;
        rc ← py_float raw_cols;
        rr ← py_float raw_rows;
        grid_aspect_ratio ← py_truediv (fmul rc char_width) (fmul rr char_height);
        '(cols, rows) ←
          (if char_aspect_correction then
             if flt grid_aspect_ratio target_aspect_ratio then
               let cols := raw_cols in
               q ← py_truediv rc target_aspect_ratio;
               k ← py_truediv char_width char_height;
               rows ← py_int (fmul q k);
               mret (cols, rows)
             else
               let rows := raw_rows in
               k ← py_truediv char_height char_width;
               cols ← py_int (fmul (fmul rr target_aspect_ratio) k);
               mret (cols, rows)
           else mret (raw_cols, raw_rows));
        (* the debug record formats cols/rows *)
        _ ← py_int_truediv cols rows;
        mret (Some (cols, rows))
  | _, _ => mret None
  end.

(** Lines 74-79: the grid before the correction, the floors of the canvas
    size over the cell size. *)
Definition raw_grid (output_width output_height : Z) (font_size : float) : res (Z * Z) :=
  let char_width := fmul font_size (lit 6 10) in
  let char_height := font_size in
  w ← py_float output_width;
  raw_cols ← py_truediv w char_width ≫= py_int;
  h ← py_float output_height;
  raw_rows ← py_truediv h char_height ≫= py_int;
  mret (raw_cols, raw_rows).

(** The two aspect ratios of C4, as exact rationals: of the target canvas,
    and of a grid of [cols] x [rows] cells of [cw] x [ch] pixels. Four
    roundings separate the computed cell count from the ideal one. *)
Definition target_ratio (W H : Z) : Q := inject_Z W / inject_Z H.

Definition rendered_ratio (cw ch : Q) (cols rows : Z) : Q :=
  (inject_Z cols * cw) / (inject_Z rows * ch).

Definition slack : Q := theta ^ 4.

End ImageProcessor.

(** ** core/output_formatter.py *)

Module OutputFormatter.

Definition nl : string := String "010"%char EmptyString.

(** [sep.join(rows)]; an absent argument is not iterable. *)
Definition join (sep : string) (rows : option (list string)) : res string :=
  match rows with
  | None => Raise TypeError
  | Some rows => mret (String.concat sep rows)
  end.

Definition to_string (ascii_rows : option (list string)) : res string :=
  join nl ascii_rows.

Definition default_css : string :=
  nl +:+
  "            body { background-color: #000; margin: 0; padding: 10px; }" +:+ nl +:+
  "            pre { " +:+ nl +:+
  "                font-family: 'Courier New', monospace; " +:+ nl +:+
  "                font-size: 10px;" +:+ nl +:+
  "                line-height: 1.0;" +:+ nl +:+
  "                letter-spacing: 0;" +:+ nl +:+
  "                display: inline-block;" +:+ nl +:+
  "            }" +:+ nl +:+
  "            ".

Definition html_open (title css : string) : string :=
  "<!DOCTYPE html>" +:+ nl +:+
  "        <html>" +:+ nl +:+
  "        <head>" +:+ nl +:+
  "            <title>" +:+ title +:+ "</title>" +:+ nl +:+
  "            <style>" +:+ css +:+ "</style>" +:+ nl +:+
  "        </head>" +:+ nl +:+
  "        <body>" +:+ nl +:+
  "            <pre>".

Definition html_close : string :=
  "</pre>" +:+ nl +:+
  "        </body>" +:+ nl +:+
  "        </html>".

Definition to_html (ascii_rows : option (list string)) (title css : string) : res string :=
  let css := if bool_decide (css = EmptyString) then default_css else css in
  body ← join EmptyString ascii_rows;
  mret (html_open title css +:+ body +:+ html_close).

(** The renderers on the rows as [image_to_ascii] returns them: [join]
    raises on an item that is not a string. *)
Definition strings (ascii_rows : list AsciiConverter.row) : res (list string) :=
  mapM (fun r => match r with
                 | AsciiConverter.RowStr s => mret s
                 | AsciiConverter.RowList _ => Raise TypeError
                 end) ascii_rows.

Definition to_string_rows (ascii_rows : list AsciiConverter.row) : res string :=
  rows ← strings ascii_rows; to_string (Some rows).

Definition to_html_rows (ascii_rows : list AsciiConverter.row) (title css : string)
  : res string :=
  rows ← strings ascii_rows; to_html (Some rows) title css.

(** A row without a line separator in it. *)
Definition newline_free (s : string) : Prop :=
  ~ In "010"%char (list_ascii_of_string s).

End OutputFormatter.

(** * Properties *)

(** ** Rounding to binary64 is monotone and exact on small integers *)

Section Binary64Facts.
Local Open Scope Q_scope.

Lemma pow2_pos e : 0 < pow2 e.
Proof. apply Qpower_0_lt. reflexivity. Qed.

Lemma pow2_add a b : pow2 (a + b) == pow2 a * pow2 b.
Proof. apply Qpower_plus. discriminate. Qed.

Lemma pow2_le a b : (a <= b)%Z -> pow2 a <= pow2 b.
Proof. intros. apply Qpower_le_compat_l; [lia | discriminate]. Qed.

Lemma pow2_lt a b : (a < b)%Z -> pow2 a < pow2 b.
Proof. intros. apply Qpower_lt_compat_l; [lia | reflexivity]. Qed.

Lemma pow2_lt_inv a b : pow2 a < pow2 b -> (a < b)%Z.
Proof. intros. eapply Qpower_lt_compat_l_inv; [eassumption | reflexivity]. Qed.

Lemma pow2_Z n : (0 <= n)%Z -> pow2 n == inject_Z (2 ^ n).
Proof. intros. unfold pow2. rewrite Zpower_Qpower by lia. reflexivity. Qed.

Lemma Q_as_div (n : Z) (d : positive) : (n # d) * inject_Z (Zpos d) == inject_Z n.
Proof. unfold Qeq, Qmult, inject_Z. simpl. lia. Qed.

Lemma ilog2_spec x : 0 < x -> pow2 (ilog2 x) <= x /\ x < pow2 (ilog2 x + 1).
Proof.
  intros Hx. destruct x as [n d]. unfold ilog2. cbn [Qnum Qden].
  assert (Hn : (0 < n)%Z) by (unfold Qlt in Hx; simpl in Hx; lia).
  set (a := Z.log2 n). set (b := Z.log2 (Zpos d)).
  destruct (Z.log2_spec n Hn) as [Ha1 Ha2]. fold a in Ha1, Ha2.
  destruct (Z.log2_spec (Zpos d) eq_refl) as [Hb1 Hb2]. fold b in Hb1, Hb2.
  assert (Ha0 : (0 <= a)%Z) by apply Z.log2_nonneg.
  assert (Hb0 : (0 <= b)%Z) by apply Z.log2_nonneg.
  pose proof (Q_as_div n d) as Hnd.
  assert (Hd : 0 < inject_Z (Zpos d)) by reflexivity.
  assert (Hd1 : pow2 b <= inject_Z (Zpos d)).
  { rewrite pow2_Z by lia. rewrite <- Zle_Qle. exact Hb1. }
  assert (Hd2 : inject_Z (Zpos d) < pow2 (b + 1)).
  { rewrite pow2_Z by lia. rewrite <- Zlt_Qlt. replace (b+1)%Z with (Z.succ b) by lia. exact Hb2. }
  assert (Hn1 : pow2 a <= inject_Z n).
  { rewrite pow2_Z by lia. rewrite <- Zle_Qle. exact Ha1. }
  assert (Hn2 : inject_Z n < pow2 (a + 1)).
  { rewrite pow2_Z by lia. rewrite <- Zlt_Qlt. replace (a+1)%Z with (Z.succ a) by lia. exact Ha2. }
  assert (Hup : (n # d) < pow2 (a - b + 1)).
  { apply Qmult_lt_r with (z := inject_Z (Zpos d)); [exact Hd|].
    rewrite Hnd. eapply Qlt_le_trans; [exact Hn2|].
    replace (a + 1)%Z with ((a - b + 1) + b)%Z by lia. rewrite pow2_add.
    apply Qmult_le_l; [apply pow2_pos | exact Hd1]. }
  assert (Hlo : pow2 (a - b - 1) <= (n # d)).
  { apply Qmult_le_r with (z := inject_Z (Zpos d)); [exact Hd|].
    rewrite Hnd. eapply Qle_trans; [|exact Hn1].
    replace a with ((a - b - 1) + (b + 1))%Z at 2 by lia. rewrite pow2_add.
    apply Qmult_le_l; [apply pow2_pos | apply Qlt_le_weak; exact Hd2]. }
  destruct (Qle_bool (pow2 (a - b)) (n # d)) eqn:E.
  - apply Qle_bool_iff in E. split; [exact E | exact Hup].
  - split; [exact Hlo|]. replace (a - b - 1 + 1)%Z with (a - b)%Z by lia.
    apply Qnot_le_lt. intros C. apply Qle_bool_iff in C. congruence.
Qed.


Lemma ilog2_mono x y : 0 < x -> x <= y -> (ilog2 x <= ilog2 y)%Z.
Proof.
  intros Hx Hxy.
  assert (Hy : 0 < y) by (eapply Qlt_le_trans; eassumption).
  destruct (ilog2_spec x Hx) as [H1 _]. destruct (ilog2_spec y Hy) as [_ H2].
  assert (pow2 (ilog2 x) < pow2 (ilog2 y + 1)).
  { eapply Qle_lt_trans; [exact H1|]. eapply Qle_lt_trans; eassumption. }
  apply pow2_lt_inv in H. lia.
Qed.

Lemma rhe_mono x y : x <= y -> (rhe x <= rhe y)%Z.
Proof.
  intros Hxy. unfold rhe.
  pose proof (Qfloor_resp_le x y Hxy) as Hf.
  pose proof (Qfloor_le x) as Hx1. pose proof (Qlt_floor x) as Hx2.
  pose proof (Qfloor_le y) as Hy1. pose proof (Qlt_floor y) as Hy2.
  set (fx := Qfloor x) in *. set (fy := Qfloor y) in *.
  destruct (Z.eq_dec fx fy) as [E|NE].
  - rewrite <- E in *.
    destruct (Qcompare_spec (x - inject_Z fx) (1#2)) as [Cx|Cx|Cx];
    destruct (Qcompare_spec (y - inject_Z fx) (1#2)) as [Cy|Cy|Cy];
    try destruct (Z.even fx); try lia; exfalso; lra.
  - assert (fx + 1 <= fy)%Z by lia.
    destruct (Qcompare (x - inject_Z fx) (1#2));
    destruct (Qcompare (y - inject_Z fy) (1#2));
    try destruct (Z.even fx); try destruct (Z.even fy); lia.
Qed.

Lemma rhe_Z n : rhe (inject_Z n) = n.
Proof.
  unfold rhe. rewrite Qfloor_Z.
  destruct (Qcompare_spec (inject_Z n - inject_Z n) (1#2)) as [C|C|C]; try reflexivity; exfalso; lra.
Qed.


Lemma ulp_exp_mono x y : 0 < x -> x <= y -> (ulp_exp x <= ulp_exp y)%Z.
Proof. intros. unfold ulp_exp. pose proof (ilog2_mono x y H H0). lia. Qed.

Lemma Qdiv_pow2_le x y e : x <= y -> x / pow2 e <= y / pow2 e.
Proof.
  intros. unfold Qdiv. apply Qmult_le_compat_r; [assumption|].
  apply Qlt_le_weak, Qinv_lt_0_compat, pow2_pos.
Qed.

Lemma pow2_div a b : pow2 a / pow2 b == pow2 (a - b).
Proof. symmetry. apply Qpower_minus. discriminate. Qed.

(* the rounded value of a positive x stays within the binade of x *)
Lemma round_pos_upper x : 0 < x -> round_pos x <= pow2 (ulp_exp x + 53).
Proof.
  intros Hx. unfold round_pos. set (e := ulp_exp x).
  destruct (ilog2_spec x Hx) as [_ H2].
  assert (He : (ilog2 x + 1 <= e + 53)%Z) by (unfold e, ulp_exp; lia).
  assert (Hq : x / pow2 e <= inject_Z (2 ^ 53)).
  { rewrite <- pow2_Z by lia.
    assert (E : pow2 53 == pow2 (e + 53) / pow2 e)
      by (rewrite pow2_div; replace (e + 53 - e)%Z with 53%Z by lia; reflexivity).
    rewrite E. apply Qdiv_pow2_le. apply Qlt_le_weak.
    eapply Qlt_le_trans; [exact H2|]. apply pow2_le; lia. }
  apply rhe_mono in Hq. rewrite rhe_Z in Hq.
  rewrite (pow2_add e 53), (Qmult_comm (pow2 e)).
  apply Qmult_le_r; [apply pow2_pos|].
  rewrite (pow2_Z 53) by lia. rewrite <- Zle_Qle. exact Hq.
Qed.

Lemma round_pos_lower x : pow2 (-1022) <= x -> pow2 (ulp_exp x + 52) <= round_pos x.
Proof.
  intros Hn.
  assert (Hx : 0 < x) by (eapply Qlt_le_trans; [apply (pow2_pos (-1022)) | exact Hn]).
  unfold round_pos. set (e := ulp_exp x).
  destruct (ilog2_spec x Hx) as [H1 H2].
  assert (Hl : (-1022 <= ilog2 x)%Z).
  { assert (pow2 (-1022) < pow2 (ilog2 x + 1)) by (eapply Qle_lt_trans; eassumption).
    apply pow2_lt_inv in H. lia. }
  assert (He : (e + 52 = ilog2 x)%Z) by (unfold e, ulp_exp; lia).
  assert (Hq : inject_Z (2 ^ 52) <= x / pow2 e).
  { rewrite <- pow2_Z by lia.
    assert (E : pow2 52 == pow2 (e + 52) / pow2 e)
      by (rewrite pow2_div; replace (e + 52 - e)%Z with 52%Z by lia; reflexivity).
    rewrite E. apply Qdiv_pow2_le. rewrite He. exact H1. }
  apply rhe_mono in Hq. rewrite rhe_Z in Hq.
  rewrite (pow2_add e 52), (Qmult_comm (pow2 e)).
  apply Qmult_le_r; [apply pow2_pos|].
  rewrite (pow2_Z 52) by lia. rewrite <- Zle_Qle. exact Hq.
Qed.

Lemma round_pos_nonneg x : 0 < x -> 0 <= round_pos x.
Proof.
  intros Hx. unfold round_pos.
  apply Qmult_le_0_compat; [|apply Qlt_le_weak, pow2_pos].
  assert (H0 : 0 <= x / pow2 (ulp_exp x)).
  { apply Qlt_le_weak, Qlt_shift_div_l; [apply pow2_pos | lra]. }
  apply rhe_mono in H0. change 0 with (inject_Z 0) in H0 at 1. rewrite rhe_Z in H0.
  change 0 with (inject_Z 0). rewrite <- Zle_Qle. exact H0.
Qed.

Lemma round_pos_mono x y : 0 < x -> x <= y -> round_pos x <= round_pos y.
Proof.
  intros Hx Hxy.
  assert (Hy : 0 < y) by (eapply Qlt_le_trans; eassumption).
  pose proof (ulp_exp_mono x y Hx Hxy) as He.
  destruct (Z.eq_dec (ulp_exp x) (ulp_exp y)) as [E|NE].
  - unfold round_pos. rewrite E.
    apply Qmult_le_compat_r; [|apply Qlt_le_weak, pow2_pos].
    rewrite <- Zle_Qle. apply rhe_mono. apply Qdiv_pow2_le. exact Hxy.
  - assert (Hlt : (ulp_exp x < ulp_exp y)%Z) by lia.
    assert (Hyn : pow2 (-1022) <= y).
    { destruct (ilog2_spec y Hy) as [H1 _]. eapply Qle_trans; [|exact H1].
      apply pow2_le. unfold ulp_exp in *. lia. }
    eapply Qle_trans; [apply round_pos_upper; exact Hx|].
    eapply Qle_trans; [|apply round_pos_lower; exact Hyn].
    apply pow2_le. lia.
Qed.

Lemma round_fin_mono x y : x <= y -> round_fin x <= round_fin y.
Proof.
  intros Hxy. unfold round_fin.
  destruct (Qcompare_spec x 0) as [Cx|Cx|Cx]; destruct (Qcompare_spec y 0) as [Cy|Cy|Cy];
    try (exfalso; lra); try lra.
  - apply round_pos_nonneg; assumption.
  - pose proof (round_pos_nonneg (- x)). lra.
  - assert (0 <= round_pos (- x)) by (apply round_pos_nonneg; lra).
    assert (0 <= round_pos (- y)) by (apply round_pos_nonneg; lra).
    assert (round_pos (- y) <= round_pos (- x)) by (apply round_pos_mono; lra). lra.
  - assert (0 <= round_pos (- x)) by (apply round_pos_nonneg; lra).
    assert (0 <= round_pos y) by (apply round_pos_nonneg; lra). lra.
  - apply round_pos_mono; assumption.
Qed.

Lemma rhe_comp x y : x == y -> rhe x = rhe y.
Proof.
  intros E. unfold rhe. rewrite (Qfloor_comp _ _ E).
  assert (H : x - inject_Z (Qfloor y) == y - inject_Z (Qfloor y)) by (rewrite E; reflexivity).
  rewrite (Qcompare_comp _ _ H _ _ (Qeq_refl _)). reflexivity.
Qed.

Lemma Qtrunc_comp x y : x == y -> Qtrunc x = Qtrunc y.
Proof.
  intros E. unfold Qtrunc.
  rewrite (Qleb_comp _ _ (Qeq_refl 0) _ _ E), (Qfloor_comp _ _ E), (Qceiling_comp _ _ E).
  reflexivity.
Qed.

Lemma Qtrunc_mono x y : x <= y -> (Qtrunc x <= Qtrunc y)%Z.
Proof.
  intros H. unfold Qtrunc.
  destruct (Qle_bool 0 x) eqn:Ex; destruct (Qle_bool 0 y) eqn:Ey.
  - apply Qfloor_resp_le, H.
  - apply Qle_bool_iff in Ex. exfalso.
    assert (0 <= y) by lra. apply Qle_bool_iff in H0. congruence.
  - assert (Hx : x < 0) by (apply Qnot_le_lt; intros C; apply Qle_bool_iff in C; congruence).
    apply Qle_bool_iff in Ey.
    assert (Hc : x <= 0) by lra.
    apply Qceiling_resp_le in Hc. apply Qfloor_resp_le in Ey.
    change (Qceiling 0) with 0%Z in Hc. change (Qfloor 0) with 0%Z in Ey. lia.
  - apply Qceiling_resp_le, H.
Qed.

Lemma Qtrunc_Z k : Qtrunc (inject_Z k) = k.
Proof. unfold Qtrunc. rewrite Qfloor_Z, Qceiling_Z. destruct (Qle_bool 0 (inject_Z k)); reflexivity. Qed.

Lemma round_fin_0 : round_fin 0 = 0.
Proof. reflexivity. Qed.

Lemma classify_mono r s : r <= s -> fle (classify r) (classify s) = true.
Proof.
  intros H. unfold classify.
  destruct (Qle_bool (pow2 1024) r) eqn:E1.
  - apply Qle_bool_iff in E1.
    assert (E2 : Qle_bool (pow2 1024) s = true) by (apply Qle_bool_iff; lra).
    rewrite E2. reflexivity.
  - destruct (Qle_bool r (- pow2 1024)) eqn:E3.
    + destruct (Qle_bool (pow2 1024) s); [reflexivity|].
      destruct (Qle_bool s (- pow2 1024)); reflexivity.
    + destruct (Qle_bool (pow2 1024) s); [reflexivity|].
      destruct (Qle_bool s (- pow2 1024)) eqn:E4.
      * apply Qle_bool_iff in E4. exfalso.
        assert (C : r <= - pow2 1024) by lra. apply Qle_bool_iff in C. congruence.
      * cbn. apply Qle_bool_iff. rewrite !Qred_correct. exact H.
Qed.

Lemma rnd_mono x y : x <= y -> fle (rnd x) (rnd y) = true.
Proof. intros H. apply classify_mono, round_fin_mono, H. Qed.

Lemma rnd_not_NaN x : rnd x <> NaN.
Proof.
  unfold rnd, classify.
  destruct (Qle_bool _ _); [discriminate|]. destruct (Qle_bool _ _); discriminate.
Qed.

Lemma fle_Fin x y : fle (Fin x) (Fin y) = true <-> x <= y.
Proof. cbn. apply Qle_bool_iff. Qed.

Lemma flt_Fin x y : flt (Fin x) (Fin y) = true <-> x < y.
Proof.
  cbn. rewrite negb_true_iff. split.
  - intros E. apply Qnot_le_lt. intros C. apply Qle_bool_iff in C. congruence.
  - intros L. destruct (Qle_bool y x) eqn:E; [|reflexivity].
    apply Qle_bool_iff in E. lra.
Qed.

Lemma flt_Fin_false x y : flt (Fin x) (Fin y) = false <-> y <= x.
Proof.
  cbn. rewrite negb_false_iff. apply Qle_bool_iff.
Qed.

(** A value squeezed between two finite roundings is finite. *)
Lemma rnd_between l h x l' h' :
  l <= x -> x <= h -> rnd l = Fin l' -> rnd h = Fin h' ->
  exists q, rnd x = Fin q /\ l' <= q /\ q <= h'.
Proof.
  intros Hl Hh El Eh.
  pose proof (rnd_mono _ _ Hl) as M1. pose proof (rnd_mono _ _ Hh) as M2.
  rewrite El in M1. rewrite Eh in M2.
  destruct (rnd x) as [q| | |]; try discriminate.
  exists q. split; [reflexivity|]. split; apply fle_Fin; assumption.
Qed.

Lemma classify_Fin r : - pow2 1024 < r -> r < pow2 1024 -> classify r = Fin (Qred r).
Proof.
  intros H1 H2. unfold classify.
  destruct (Qle_bool (pow2 1024) r) eqn:E1; [apply Qle_bool_iff in E1; lra|].
  destruct (Qle_bool r (- pow2 1024)) eqn:E2; [apply Qle_bool_iff in E2; lra|].
  reflexivity.
Qed.

Lemma pow2_opp_div x e : x / pow2 e == x * pow2 (- e).
Proof.
  unfold Qdiv. apply Qmult_comp; [reflexivity|].
  unfold pow2. rewrite Qpower_opp. reflexivity.
Qed.

(** Integers of magnitude below [2^53] are binary64 values. *)
Lemma round_pos_Z k : (0 < k < 2 ^ 53)%Z -> round_pos (inject_Z k) == inject_Z k.
Proof.
  intros [Hk1 Hk2].
  assert (Hx : 0 < inject_Z k) by (change 0 with (inject_Z 0); rewrite <- Zlt_Qlt; lia).
  destruct (ilog2_spec _ Hx) as [H1 H2].
  assert (He : (0 <= ilog2 (inject_Z k) < 53)%Z).
  { split.
    - assert (pow2 0 < pow2 (ilog2 (inject_Z k) + 1)).
      { eapply Qle_lt_trans; [|exact H2]. change (pow2 0) with (inject_Z 1).
        rewrite <- Zle_Qle. lia. }
      apply pow2_lt_inv in H. lia.
    - apply pow2_lt_inv. eapply Qle_lt_trans; [exact H1|].
      rewrite (pow2_Z 53) by lia. rewrite <- Zlt_Qlt. exact Hk2. }
  unfold round_pos, ulp_exp.
  set (e := ilog2 (inject_Z k)) in *.
  replace (Z.max (e - 52) (-1074)) with (e - 52)%Z by lia.
  assert (E : inject_Z k / pow2 (e - 52) == inject_Z (k * 2 ^ (52 - e))).
  { rewrite pow2_opp_div. replace (- (e - 52))%Z with (52 - e)%Z by lia.
    rewrite pow2_Z by lia. rewrite inject_Z_mult. reflexivity. }
  rewrite (rhe_comp _ _ E), rhe_Z, inject_Z_mult, <- Qmult_assoc.
  rewrite <- (pow2_Z (52 - e)) by lia. rewrite <- pow2_add.
  replace (52 - e + (e - 52))%Z with 0%Z by lia. change (pow2 0) with 1. ring.
Qed.

Lemma round_fin_Z k : (Z.abs k < 2 ^ 53)%Z -> round_fin (inject_Z k) == inject_Z k.
Proof.
  intros Hk. unfold round_fin.
  destruct (Qcompare_spec (inject_Z k) 0) as [C|C|C].
  - symmetry. exact C.
  - change 0 with (inject_Z 0) in C. rewrite <- Zlt_Qlt in C.
    rewrite <- inject_Z_opp, round_pos_Z by lia. rewrite inject_Z_opp. ring.
  - change 0 with (inject_Z 0) in C. rewrite <- Zlt_Qlt in C.
    apply round_pos_Z. lia.
Qed.

Lemma rnd_Z k : (Z.abs k < 2 ^ 53)%Z -> exists q, rnd (inject_Z k) = Fin q /\ q == inject_Z k.
Proof.
  intros Hk. pose proof (round_fin_Z k Hk) as E.
  assert (B : - pow2 1024 < round_fin (inject_Z k) /\ round_fin (inject_Z k) < pow2 1024).
  { rewrite E.
    assert (P : inject_Z (2 ^ 53) < pow2 1024).
    { rewrite <- (pow2_Z 53) by lia. apply pow2_lt. lia. }
    assert (inject_Z k < inject_Z (2 ^ 53)) by (rewrite <- Zlt_Qlt; lia).
    assert (inject_Z (- 2 ^ 53) < inject_Z k) by (rewrite <- Zlt_Qlt; lia).
    rewrite inject_Z_opp in H0. split; lra. }
  exists (Qred (round_fin (inject_Z k))). split.
  - unfold rnd. apply classify_Fin; apply B.
  - rewrite Qred_correct. exact E.
Qed.

Lemma of_Z_exact k : (Z.abs k < 2 ^ 53)%Z -> exists q, of_Z k = Fin q /\ q == inject_Z k.
Proof. apply rnd_Z. Qed.

Lemma py_float_exact k :
  (Z.abs k < 2 ^ 53)%Z -> exists q, py_float k = Ok (Fin q) /\ q == inject_Z k.
Proof.
  intros Hk. destruct (of_Z_exact k Hk) as (q & E & Hq).
  exists q. unfold py_float. rewrite E. split; [reflexivity | exact Hq].
Qed.

End Binary64Facts.

(** ** The model against the reference operations *)

Section ReferenceChecks.
Import Reference.
Local Open Scope Z_scope.

Example literals_agree :
  forallb (fun '(n, d) => feq (of_spec_float (sf_lit n (Zpos d))) (lit n d))
    [(299, 1000%positive); (587, 1000%positive); (114, 1000%positive); (6, 10%positive);
     (15, 10%positive); (225, 10%positive); (-1575, 10%positive); (1, 3%positive)]
  = true.
Proof. vm_compute. reflexivity. Qed.

Example luma_agrees_on_grays :
  forallb (fun g => feq (of_spec_float (sf_luma g g g)) (luma g g g)) levels = true.
Proof. vm_compute. reflexivity. Qed.

Example luma_agrees_on_colours :
  forallb (fun g => feq (of_spec_float (sf_luma (255 - g) g (g * 7 mod 256)))
                        (luma (255 - g) g (g * 7 mod 256))) levels = true.
Proof. vm_compute. reflexivity. Qed.

Example rows_agree :
  forallb (fun '(W, H, font, cols) =>
             feq (of_spec_float (sf_rows W H font cols)) (rows W H font cols))
    [(1000, 12, 12, 138); (1000, 24, 12, 138); (1920, 1080, 12, 266); (483, 2030, 7, 46)]
  = true.
Proof. vm_compute. reflexivity. Qed.

Example scaled_agrees :
  forallb (fun i => feq (of_spec_float (sf_scaled i 10 (sf_lit 15 10)))
                        (AsciiConverter.scaled (py_min_255 (fmul (of_Z i) (lit 15 10)))
                                               (of_Z 9) false)
                    || (170 <? i)) levels = true.
Proof. vm_compute. reflexivity. Qed.

(** Overflow, and ties among subnormal numbers. *)
Example extremes_agree :
  feq (of_spec_float (sf_mul (SpecFloat.S754_finite false 1 1023) (sf_Z 2)))
      (fmul (Fin (pow2 1023)) (of_Z 2))
  && feq (of_spec_float (sf_div (SpecFloat.S754_finite false 1 (-1074)) (sf_Z 2)))
         (fdiv (Fin (pow2 (-1074))) (of_Z 2))
  && feq (of_spec_float (sf_div (SpecFloat.S754_finite false 3 (-1074)) (sf_Z 2)))
         (fdiv (Fin (3 * pow2 (-1074))) (of_Z 2))
  && feq (of_spec_float (sf_div (SpecFloat.S754_finite false 5 (-1074)) (sf_Z 2)))
         (fdiv (Fin (5 * pow2 (-1074))) (of_Z 2))
  && feq (of_spec_float (sf_sub (SpecFloat.S754_finite false 1 1023) (sf_lit 1 3)))
         (fsub (Fin (pow2 1023)) (lit 1 3))
  = true.
Proof. vm_compute. reflexivity. Qed.

End ReferenceChecks.

(** ** Renderers *)

Section Renderers.
Import OutputFormatter.

Lemma length_append (s1 s2 : string) :
  String.length (s1 +:+ s2) = String.length s1 + String.length s2.
Proof.
  induction s1 as [|c s1 IH]; [reflexivity|].
  change (S (String.length (s1 +:+ s2)) = S (String.length s1 + String.length s2)).
  now rewrite IH.
Qed.

Lemma append_assoc (s1 s2 s3 : string) : (s1 +:+ s2) +:+ s3 = s1 +:+ (s2 +:+ s3).
Proof.
  induction s1 as [|c s1 IH]; [reflexivity|].
  change (String c ((s1 +:+ s2) +:+ s3) = String c (s1 +:+ (s2 +:+ s3))).
  now rewrite IH.
Qed.

Lemma concat_empty_cons (r : string) (rs : list string) :
  String.concat EmptyString (r :: rs) = r +:+ String.concat EmptyString rs.
Proof.
  destruct rs as [|r' rs]; cbn [String.concat].
  - induction r as [|c r IH]; [reflexivity|].
    change (String c r = String c (r +:+ EmptyString)). now rewrite <- IH.
  - reflexivity.
Qed.

Lemma concat_nl_length (r1 r2 : string) (rs : list string) :
  String.length (String.concat nl (r1 :: r2 :: rs))
  = S (String.length (String.concat nl ((r1 +:+ r2) :: rs))).
Proof.
  destruct rs as [|r3 rs].
  - cbn [String.concat]. rewrite !length_append. cbn. lia.
  - change (String.concat nl (r1 :: r2 :: r3 :: rs))
      with (r1 +:+ nl +:+ r2 +:+ nl +:+ String.concat nl (r3 :: rs)).
    change (String.concat nl ((r1 +:+ r2) :: r3 :: rs))
      with ((r1 +:+ r2) +:+ nl +:+ String.concat nl (r3 :: rs)).
    rewrite !length_append. cbn. lia.
Qed.

(** C9 (as stated, refuted): an absent grid makes [to_string] raise; it
    does not return the empty string. *)
Lemma to_string_absent_raises :
  to_string None = Raise TypeError /\ to_string None <> Ok EmptyString.
Proof. split; [reflexivity | discriminate]. Qed.

(** C9 (amended): on every grid of row strings [to_string] returns normally
    the rows with one line separator between consecutive rows, which is the
    empty string for the empty grid; an absent grid raises [TypeError]. *)
Theorem to_string_joins_rows :
  to_string (Some []) = Ok EmptyString
  /\ (forall r, to_string (Some [r]) = Ok r)
  /\ (forall r r' rs,
        exists s, to_string (Some (r' :: rs)) = Ok s
                  /\ to_string (Some (r :: r' :: rs)) = Ok (r +:+ nl +:+ s))
  /\ (forall rows, exists s, to_string (Some rows) = Ok s)
  /\ to_string None = Raise TypeError.
Proof.
  repeat split.
  - intros r r' rs. eexists. split; reflexivity.
  - intros rows. eexists. reflexivity.
Qed.

(** C10: inside the single [pre] element [to_html] puts the rows one after
    the other with nothing between them, so a grid and the grid with its
    first two rows fused give the same document, while [to_string] tells
    them apart. *)
Theorem to_html_drops_row_boundaries (r1 r2 : string) (rs : list string) (title css : string) :
  to_html (Some (r1 :: r2 :: rs)) title css
  = Ok (html_open title (if bool_decide (css = EmptyString) then default_css else css)
        +:+ (r1 +:+ r2 +:+ String.concat EmptyString rs) +:+ html_close)
  /\ to_html (Some (r1 :: r2 :: rs)) title css = to_html (Some ((r1 +:+ r2) :: rs)) title css
  /\ to_string (Some (r1 :: r2 :: rs)) <> to_string (Some ((r1 +:+ r2) :: rs)).
Proof.
  split; [|split].
  - unfold to_html, join. cbn [mbind res_bind mret res_ret].
    rewrite !concat_empty_cons. reflexivity.
  - unfold to_html, join. cbn [mbind res_bind mret res_ret].
    rewrite !concat_empty_cons, (append_assoc r1 r2). reflexivity.
  - unfold to_string, join. intros E.
    assert (E' : String.concat nl (r1 :: r2 :: rs) = String.concat nl ((r1 +:+ r2) :: rs))
      by (injection E; trivial).
    apply (f_equal String.length) in E'. rewrite concat_nl_length in E'. lia.
Qed.

End Renderers.

(** ** Configuration *)

Section Configuration.

(** C7: a rejected preset name, scheme name or mode name leaves the
    configuration object as it was; the call returns (the current ramp,
    resp. [False]) and only adds a warning to the log. *)
Theorem configuration_failures_preserve_state :
  (forall (self : AsciiConverter.t) (set_name : string) (custom_chars : option pystr),
      AsciiConverter.char_sets self !! set_name = None ->
      custom_chars = None \/ custom_chars = Some [] ->
      AsciiConverter.set_char_set self (Some set_name) custom_chars
      = (AsciiConverter.char_set self, self,
         [(WARNING, "Unknown character set '" +:+ set_name +:+ "', keeping current set")]))
  /\ (forall (self : ColorHandler.t) (scheme_name : string),
      ColorHandler.color_schemes self !! scheme_name = None ->
      ColorHandler.set_color_scheme self scheme_name
      = (false, self, [(WARNING, "Unknown color scheme: " +:+ scheme_name)]))
  /\ (forall (self : ColorHandler.t) (mode : string),
      ColorHandler.format_to_mode !! lower mode = None ->
      lower mode ∉ ColorHandler.valid_modes ->
      ColorHandler.set_output_mode self mode
      = (false, self, [(WARNING, "Invalid output mode: " +:+ mode)])).
Proof.
  split; [|split].
  - intros self set_name custom_chars Hn Hc.
    unfold AsciiConverter.set_char_set.
    destruct Hc as [-> | ->]; cbn [mbind option_bind]; rewrite Hn; reflexivity.
  - intros self scheme_name Hn. unfold ColorHandler.set_color_scheme. rewrite Hn. reflexivity.
  - intros self mode Hf Hv. unfold ColorHandler.set_output_mode. rewrite Hf.
    rewrite bool_decide_eq_false_2 by exact Hv. reflexivity.
Qed.

Lemma configuration_failures_preserve_state_witness :
  AsciiConverter.set_char_set (AsciiConverter.init None) (Some "neon"%string) None
  = (AsciiConverter.standard, AsciiConverter.init None,
     [(WARNING, "Unknown character set 'neon', keeping current set"%string)])
  /\ ColorHandler.set_color_scheme (ColorHandler.init "html") "sepia"
     = (false, ColorHandler.init "html", [(WARNING, "Unknown color scheme: sepia"%string)])
  /\ ColorHandler.set_output_mode (ColorHandler.init "html") "PDF"
     = (false, ColorHandler.init "html", [(WARNING, "Invalid output mode: PDF"%string)]).
Proof.
  destruct configuration_failures_preserve_state as (H1 & H2 & H3).
  split; [|split].
  - apply (H1 (AsciiConverter.init None) "neon"%string None); [reflexivity | left; reflexivity].
  - apply (H2 (ColorHandler.init "html") "sepia"%string). reflexivity.
  - apply (H3 (ColorHandler.init "html") "PDF"%string); [reflexivity|].
    apply not_elem_of_cons. split; [discriminate|].
    apply not_elem_of_cons. split; [discriminate|].
    apply not_elem_of_cons. split; [discriminate|]. apply not_elem_of_nil.
Defined.

End Configuration.

(** ** Colour schemes *)

Section ColourSchemes.

(** C8 (the code departs from it): the grayscale of (0, 0, 9) is (1, 1, 1),
    and the grayscale of (1, 1, 1) is (0, 0, 0): the three weights add up
    to less than one in binary64 and [int] truncates. *)
Theorem to_grayscale_twice :
  ColorHandler._to_grayscale 0 0 9 = Ok (1, 1, 1)%Z
  /\ ColorHandler._to_grayscale 1 1 1 = Ok (0, 0, 0)%Z.
Proof. split; vm_compute; reflexivity. Qed.

(** The gray levels that [_to_grayscale] does not leave in place. *)
Example to_grayscale_moved_levels :
  length (List.filter (fun g => match ColorHandler._to_grayscale g g g with
                           | Ok (gray, _, _) => negb (gray =? g)%Z
                           | Raise _ => true
                           end)
                 Reference.levels) = 65.
Proof. vm_compute. reflexivity. Qed.

Example to_grayscale_white :
  ColorHandler._to_grayscale 255 255 255 = Ok (255, 255, 255)%Z.
Proof. vm_compute. reflexivity. Qed.

End ColourSchemes.

(** ** Grid dimensions *)

Section Dimensions.
Import ImageProcessor.

(** C3 (the code departs from it): a 1000 x 12 canvas with the default
    font size has raw floors 138 and 1, yet the call raises. *)
Theorem calculate_ascii_dimensions_raises :
  (py_truediv (of_Z 1000) (fmul (of_Z 12) (lit 6 10)) ≫= py_int) = Ok 138%Z
  /\ (py_truediv (of_Z 12) (of_Z 12) ≫= py_int) = Ok 1%Z
  /\ calculate_ascii_dimensions (Some 1000%Z) (Some 12%Z) (of_Z 12) true
     = Raise ZeroDivisionError.
Proof. repeat split; vm_compute; reflexivity. Qed.

(** The same with one raw floor at zero, and two calls that return. *)
Example calculate_ascii_dimensions_short_canvas :
  calculate_ascii_dimensions (Some 100%Z) (Some 5%Z) (of_Z 12) true = Raise ZeroDivisionError
  /\ calculate_ascii_dimensions (Some 5%Z) (Some 100%Z) (of_Z 12) true
     = Raise ZeroDivisionError.
Proof. split; vm_compute; reflexivity. Qed.

Example calculate_ascii_dimensions_returns :
  calculate_ascii_dimensions (Some 1920%Z) (Some 1080%Z) (of_Z 12) true
  = Ok (Some (266, 89)%Z)
  /\ calculate_ascii_dimensions (Some 1000%Z) (Some 24%Z) (of_Z 12) true
     = Ok (Some (138, 1)%Z)
  /\ calculate_ascii_dimensions None (Some 24%Z) (of_Z 12) true = Ok None
  /\ calculate_ascii_dimensions (Some 0%Z) (Some 24%Z) (of_Z 12) true = Ok None.
Proof. repeat split; vm_compute; reflexivity. Qed.

End Dimensions.

(** ** Edge direction *)

Section DirectionFacts.
Import AsciiConverter.
Local Open Scope Z_scope.

Lemma len_nonneg {A : Type} (l : list A) : 0 <= len l.
Proof. unfold len. lia. Qed.

Lemma py_slice_len {A : Type} (l : list A) (lo hi : Z) :
  0 <= lo -> 0 <= hi -> len (py_slice l lo hi) <= Z.max 0 (hi - lo).
Proof.
  intros Hlo Hhi. unfold py_slice, slice_index, len.
  rewrite length_take, length_drop.
  destruct (Z.ltb_spec lo 0); destruct (Z.ltb_spec hi 0); lia.
Qed.

Lemma slice2_rows {A : Type} (a : list (list A)) (y0 y1 x0 x1 : Z) :
  0 <= y0 -> 0 <= y1 -> len (slice2 a y0 y1 x0 x1) <= Z.max 0 (y1 - y0).
Proof.
  intros. unfold slice2. unfold len at 1. rewrite length_map. now apply py_slice_len.
Qed.

Lemma slice2_cols {A : Type} (a : list (list A)) (y0 y1 x0 x1 : Z) :
  0 <= x0 -> 0 <= x1 ->
  len (default [] (head (slice2 a y0 y1 x0 x1))) <= Z.max 0 (x1 - x0).
Proof.
  intros. unfold slice2. destruct (py_slice a y0 y1) as [|row rows]; cbn.
  - unfold len. cbn. lia.
  - now apply py_slice_len.
Qed.

Lemma head_map_len {A B : Type} (f : A -> B) (ll : list (list A)) :
  len (default [] (head (map (map f) ll))) = len (default [] (head ll)).
Proof. destruct ll; cbn; [reflexivity|]. unfold len. now rewrite length_map. Qed.

(** The shape of the clipped window, for coordinates that do not wrap
    around: at most the extent of the clipped index ranges. *)
Lemma shape_hw_nonneg (img : ndarray) : 0 <= fst (shape_hw img) /\ 0 <= snd (shape_hw img).
Proof. destruct img; cbn; split; apply len_nonneg. Qed.

Lemma window_gray_rows (img : ndarray) (x y ws : Z) :
  -1 <= y + ws / 2 ->
  len (window_gray img x y ws)
  <= Z.max 0 (Z.min (fst (shape_hw img) - 1) (y + ws / 2) + 1 - Z.max 0 (y - ws / 2)).
Proof.
  intros Hy. pose proof (shape_hw_nonneg img) as [Hh Hw]. unfold window_gray.
  destruct (shape_hw img) as [h w]. cbn [fst snd] in *.
  destruct img as [a|a].
  - apply slice2_rows; lia.
  - unfold len at 1. rewrite length_map. apply slice2_rows; lia.
Qed.

Lemma window_gray_cols (img : ndarray) (x y ws : Z) :
  -1 <= x + ws / 2 ->
  len (default [] (head (window_gray img x y ws)))
  <= Z.max 0 (Z.min (snd (shape_hw img) - 1) (x + ws / 2) + 1 - Z.max 0 (x - ws / 2)).
Proof.
  intros Hx. pose proof (shape_hw_nonneg img) as [Hh Hw]. unfold window_gray.
  destruct (shape_hw img) as [h w]. cbn [fst snd] in *.
  destruct img as [a|a]; rewrite ?head_map_len; apply slice2_cols; lia.
Qed.

Lemma kernel_sums_zero (v : Z) :
  mul_sum (replicate 3 (replicate 3 v)) h_kernel = 0
  /\ mul_sum (replicate 3 (replicate 3 v)) v_kernel = 0.
Proof. unfold mul_sum, zsum. cbn. lia. Qed.

(** C5: [detect_direction] answers 'none' (1) whenever the clipped window has
    fewer than 3 rows or fewer than 3 columns, which is the case (2) for
    every focal pixel on the first or last row or column of the buffer, and
    (3) for every 3x3 window of one intensity, where both Sobel sums vanish. *)
Theorem detect_direction_none (arctan2 : Z -> Z -> float) (img : ndarray) (x y : Z) :
  (forall ws,
      len (window_gray img x y ws) < 3 \/ len (default [] (head (window_gray img x y ws))) < 3 ->
      detect_direction arctan2 (Some img) x y ws = Ok (Some d_none))
  /\ (x = 0 \/ x = snd (shape_hw img) - 1 \/ y = 0 \/ y = fst (shape_hw img) - 1 ->
      detect_direction arctan2 (Some img) x y 3 = Ok (Some d_none))
  /\ (forall ws v,
      window_gray img x y ws = replicate 3 (replicate 3 v) ->
      mul_sum (window_gray img x y ws) h_kernel = 0
      /\ mul_sum (window_gray img x y ws) v_kernel = 0
      /\ detect_direction arctan2 (Some img) x y ws = Ok (Some d_none)).
Proof.
  assert (Small : forall ws,
      len (window_gray img x y ws) < 3 \/ len (default [] (head (window_gray img x y ws))) < 3 ->
      detect_direction arctan2 (Some img) x y ws = Ok (Some d_none)).
  { intros ws H. unfold detect_direction.
    destruct (Z.ltb_spec (len (window_gray img x y ws)) 3);
      destruct (Z.ltb_spec (len (default [] (head (window_gray img x y ws)))) 3);
      try reflexivity. lia. }
  split; [exact Small|]. split.
  - intros Hb. apply Small.
    pose proof (shape_hw_nonneg img) as [Hh Hw].
    pose proof (window_gray_rows img x y 3) as R.
    pose proof (window_gray_cols img x y 3) as C.
    change (3 / 2) with 1 in R, C.
    destruct Hb as [Hb|[Hb|[Hb|Hb]]].
    + right. specialize (C ltac:(lia)). lia.
    + right. specialize (C ltac:(lia)). lia.
    + left. specialize (R ltac:(lia)). lia.
    + left. specialize (R ltac:(lia)). lia.
  - intros ws v E. rewrite E. destruct (kernel_sums_zero v) as [Hx Hy].
    split; [exact Hx|]. split; [exact Hy|].
    unfold detect_direction. rewrite E, Hx, Hy. reflexivity.
Qed.

End DirectionFacts.

(** ** The order of binary64 values *)

Section FloatOrder.
Local Open Scope Q_scope.

Lemma fle_trans a b c : fle a b = true -> fle b c = true -> fle a c = true.
Proof.
  destruct a as [x| | |], b as [y| | |], c as [z| | |]; cbn; try congruence.
  rewrite !Qle_bool_iff. apply Qle_trans.
Qed.

Lemma fle_flt_trans a b c : fle a b = true -> flt b c = true -> flt a c = true.
Proof.
  destruct a as [x| | |], b as [y| | |], c as [z| | |]; try (cbn; congruence).
  rewrite fle_Fin, !flt_Fin. apply Qle_lt_trans.
Qed.

Lemma flt_fle_trans a b c : flt a b = true -> fle b c = true -> flt a c = true.
Proof.
  destruct a as [x| | |], b as [y| | |], c as [z| | |]; try (cbn; congruence).
  rewrite fle_Fin, !flt_Fin. apply Qlt_le_trans.
Qed.

Lemma flt_fle a b : flt a b = true -> fle a b = true.
Proof.
  destruct a as [x| | |], b as [y| | |]; try (cbn; congruence).
  rewrite fle_Fin, flt_Fin. apply Qlt_le_weak.
Qed.

Lemma flt_irrefl_le a b : fle a b = true -> flt b a = false.
Proof.
  destruct a as [x| | |], b as [y| | |]; try (cbn; congruence).
  rewrite fle_Fin, flt_Fin_false. trivial.
Qed.

Lemma pos_fin_inv c : pos_fin c = true -> exists q, c = Fin q /\ 0 < q.
Proof.
  unfold pos_fin. rewrite andb_true_iff. intros [H1 H2].
  destruct c as [q| | |]; try discriminate.
  exists q. split; [reflexivity | now apply flt_Fin].
Qed.

Lemma Qcompare_0_pos q : 0 < q -> (q ?= 0) = Gt /\ (0 ?= q) = Lt.
Proof. intros H. split; [now apply Qgt_alt | now apply Qlt_alt]. Qed.

Lemma fmul_mono_pos a b c :
  pos_fin c = true -> fle a b = true -> fle (fmul a c) (fmul b c) = true.
Proof.
  intros Hc H. destruct (pos_fin_inv c Hc) as (q & -> & Hq).
  destruct (Qcompare_0_pos q Hq) as [E1 E2].
  destruct a as [x| | |], b as [y| | |]; try discriminate; cbn [fmul];
    rewrite ?E1, ?E2; cbn [inf_of_sign]; try reflexivity.
  - apply rnd_mono. apply fle_Fin in H. apply Qmult_le_compat_r; lra.
  - destruct (rnd (x * q)) eqn:E; try reflexivity. now apply rnd_not_NaN in E.
  - destruct (rnd (y * q)) eqn:E; try reflexivity. now apply rnd_not_NaN in E.
Qed.

Lemma fdiv_mono_pos a b c :
  pos_fin c = true -> fle a b = true -> fle (fdiv a c) (fdiv b c) = true.
Proof.
  intros Hc H. destruct (pos_fin_inv c Hc) as (q & -> & Hq).
  assert (E0 : Qeq_bool q 0 = false).
  { destruct (Qeq_bool q 0) eqn:E; [|reflexivity]. apply Qeq_bool_eq in E. lra. }
  assert (E1 : Qle_bool 0 q = true) by (apply Qle_bool_iff; lra).
  destruct a as [x| | |], b as [y| | |]; try discriminate; cbn [fdiv];
    rewrite ?E0, ?E1; try reflexivity.
  - apply rnd_mono. apply fle_Fin in H. unfold Qdiv.
    apply Qmult_le_compat_r; [exact H|]. apply Qlt_le_weak, Qinv_lt_0_compat, Hq.
  - destruct (rnd (x / q)) eqn:E; try reflexivity. now apply rnd_not_NaN in E.
  - destruct (rnd (y / q)) eqn:E; try reflexivity. now apply rnd_not_NaN in E.
Qed.

End FloatOrder.

(** ** The reachable direction buckets *)

Section DirectionRange.
Import AsciiConverter.
Local Open Scope Z_scope.

Variable arctan2 : Z -> Z -> float.
Hypothesis arctan2_in_range : arctan2_range arctan2.

Lemma angle_range (gx gy : Z) :
  0 <= gx -> 0 <= gy ->
  let angle := fdiv (fmul (arctan2 gy gx) (of_Z 180)) np_pi in
  fle (of_Z 0) angle = true /\ fle angle (of_Z 90) = true.
Proof.
  intros Hx Hy angle. destruct (arctan2_in_range gy gx Hy Hx) as [L U].
  assert (P180 : pos_fin (of_Z 180) = true) by (vm_compute; reflexivity).
  assert (Ppi : pos_fin np_pi = true) by (vm_compute; reflexivity).
  split.
  - apply fle_trans with (fdiv (fmul (of_Z 0) (of_Z 180)) np_pi);
      [vm_compute; reflexivity|].
    apply fdiv_mono_pos; [exact Ppi|]. apply fmul_mono_pos; assumption.
  - apply fle_trans with (fdiv (fmul half_pi (of_Z 180)) np_pi);
      [|vm_compute; reflexivity].
    apply fdiv_mono_pos; [exact Ppi|]. apply fmul_mono_pos; assumption.
Qed.

Lemma bucket_reachable (gx gy : Z) :
  0 <= gx -> 0 <= gy ->
  bucket arctan2 gx gy = d_ne \/ bucket arctan2 gx gy = d_n \/ bucket arctan2 gx gy = d_e.
Proof.
  intros Hx Hy. destruct (angle_range gx gy Hx Hy) as [L U].
  unfold bucket. set (angle := fdiv (fmul (arctan2 gy gx) (of_Z 180)) np_pi) in *.
  assert (Hi : forall c, fle c angle = true -> fle c (of_Z 90) = true)
    by (intros c Hc; eapply fle_trans; eassumption).
  assert (Lo : forall c, flt angle c = true -> flt (of_Z 0) c = true)
    by (intros c Hc; eapply fle_flt_trans; eassumption).
  destruct (fle (lit 225 10) angle && flt angle (lit 675 10)); [auto|].
  destruct (fle (lit 675 10) angle && flt angle (lit 1125 10)); [auto|].
  destruct (fle (lit 1125 10) angle) eqn:E1;
    [apply Hi in E1; vm_compute in E1; discriminate|].
  cbn [andb].
  destruct (fle (lit 1575 10) angle) eqn:E2;
    [apply Hi in E2; vm_compute in E2; discriminate|].
  destruct (flt angle (lit (-1575) 10)) eqn:E3;
    [apply Lo in E3; vm_compute in E3; discriminate|].
  rewrite andb_false_r. cbn [andb orb].
  destruct (flt angle (lit (-1125) 10)) eqn:E4;
    [apply Lo in E4; vm_compute in E4; discriminate|].
  destruct (flt angle (lit (-675) 10)) eqn:E5;
    [apply Lo in E5; vm_compute in E5; discriminate|].
  destruct (flt angle (lit (-225) 10)) eqn:E6;
    [apply Lo in E6; vm_compute in E6; discriminate|].
  rewrite !andb_false_r. auto.
Qed.

(** C6: whatever the buffer, the coordinates and the window size, a value
    returned by [detect_direction] is one of 'none', 'e', 'ne', 'n'; and at
    every non-negative coordinate, with the window of 3, it does return. *)
Theorem detect_direction_reachable (img : ndarray) (x y : Z) :
  (forall ws r, detect_direction arctan2 (Some img) x y ws = Ok r ->
                exists d, r = Some d /\ reachable d)
  /\ (0 <= x -> 0 <= y ->
      exists d, detect_direction arctan2 (Some img) x y 3 = Ok (Some d) /\ reachable d).
Proof.
  assert (B : forall wg, reachable
      (if (Z.abs (mul_sum wg h_kernel) <? 20) && (Z.abs (mul_sum wg v_kernel) <? 20)
       then d_none
       else bucket arctan2 (Z.abs (mul_sum wg h_kernel)) (Z.abs (mul_sum wg v_kernel)))).
  { intros wg. destruct (_ && _); [left; reflexivity|].
    destruct (bucket_reachable (Z.abs (mul_sum wg h_kernel)) (Z.abs (mul_sum wg v_kernel)))
      as [E|[E|E]]; try lia; rewrite E; unfold reachable; auto. }
  split.
  - intros ws r. unfold detect_direction.
    set (wg := window_gray img x y ws).
    destruct ((len wg <? 3) || (len (default [] (head wg)) <? 3)).
    + intros [= <-]. exists d_none. split; [reflexivity | left; reflexivity].
    + destruct (negb ((len wg =? 3) && (len (default [] (head wg)) =? 3))); [discriminate|].
      specialize (B wg). destruct (_ && _); intros [= <-]; eexists; split; try reflexivity; exact B.
  - intros Hx Hy. unfold detect_direction.
    pose proof (shape_hw_nonneg img) as [Hh Hw].
    pose proof (window_gray_rows img x y 3) as R.
    pose proof (window_gray_cols img x y 3) as C.
    change (3 / 2) with 1 in R, C.
    specialize (R ltac:(lia)). specialize (C ltac:(lia)).
    set (wg := window_gray img x y 3) in *.
    destruct (Z.ltb_spec (len wg) 3); cbn [orb].
    + exists d_none. split; [reflexivity | left; reflexivity].
    + destruct (Z.ltb_spec (len (default [] (head wg))) 3).
      * exists d_none. split; [reflexivity | left; reflexivity].
      * replace (len wg =? 3) with true by (symmetry; apply Z.eqb_eq; lia).
        replace (len (default [] (head wg)) =? 3) with true by (symmetry; apply Z.eqb_eq; lia).
        cbn [andb negb]. specialize (B wg).
        destruct (_ && _); eexists; split; try reflexivity; exact B.
Qed.

End DirectionRange.

Section DirectionWitnesses.
Import AsciiConverter.
Local Open Scope Z_scope.

Lemma arctan2_coarse_range : arctan2_range arctan2_coarse.
Proof.
  intros gy gx _ _. unfold arctan2_coarse.
  destruct (gy =? 0); [split; vm_compute; reflexivity|].
  destruct (gx =? 0); [split; vm_compute; reflexivity|].
  destruct (gy <? gx); split; vm_compute; reflexivity.
Qed.

Lemma detect_direction_none_witness :
  detect_direction arctan2_coarse (Some uniform_image) 1 1 3 = Ok (Some d_none)
  /\ detect_direction arctan2_coarse (Some edge_image) 0 1 3 = Ok (Some d_none).
Proof.
  split.
  - apply (proj2 (proj2 (detect_direction_none arctan2_coarse uniform_image 1 1)) 3 7).
    vm_compute. reflexivity.
  - apply (proj1 (proj2 (detect_direction_none arctan2_coarse edge_image 0 1))).
    left. reflexivity.
Defined.

Lemma detect_direction_reachable_witness :
  exists d, detect_direction arctan2_coarse (Some edge_image) 1 1 3 = Ok (Some d)
            /\ reachable d.
Proof.
  apply (proj2 (detect_direction_reachable arctan2_coarse arctan2_coarse_range edge_image 1 1));
    lia.
Defined.

End DirectionWitnesses.

(** ** The glyph index *)

Section FloatSteps.
Local Open Scope Q_scope.

Lemma rnd_zero x : x == 0 -> rnd x = Fin 0.
Proof.
  intros E. unfold rnd, round_fin. rewrite (proj1 (Qeq_alt x 0) E). vm_compute. reflexivity.
Qed.

Lemma of_Z_0 : of_Z 0 = Fin 0.
Proof. vm_compute. reflexivity. Qed.

Lemma of_Z_255 : of_Z 255 = Fin 255.
Proof. vm_compute. reflexivity. Qed.

Lemma fmul_Fin_mono x y c :
  0 <= c -> x <= y -> fle (fmul (Fin x) (Fin c)) (fmul (Fin y) (Fin c)) = true.
Proof. intros Hc H. cbn [fmul]. apply rnd_mono. apply Qmult_le_compat_r; assumption. Qed.

Lemma fmul_Fin_anti x y c :
  c <= 0 -> x <= y -> fle (fmul (Fin y) (Fin c)) (fmul (Fin x) (Fin c)) = true.
Proof.
  intros Hc H. cbn [fmul]. apply rnd_mono.
  assert (E : x * (- c) <= y * (- c)) by (apply Qmult_le_compat_r; lra).
  lra.
Qed.

Lemma fsub_anti c a b :
  fle a b = true -> fle (fsub (Fin c) b) (fsub (Fin c) a) = true.
Proof.
  intros H. unfold fsub.
  destruct a as [x| | |], b as [y| | |]; try discriminate; cbn [fneg fadd]; try reflexivity.
  - apply rnd_mono. apply fle_Fin in H. lra.
  - destruct (rnd (c + - x)) eqn:E; try reflexivity. now apply rnd_not_NaN in E.
  - destruct (rnd (c + - y)) eqn:E; try reflexivity. now apply rnd_not_NaN in E.
Qed.

Lemma py_min_255_mono a b :
  fle a b = true -> fle (py_min_255 a) (py_min_255 b) = true.
Proof.
  intros H. unfold py_min_255.
  destruct (flt a (of_Z 255)) eqn:Ea; destruct (flt b (of_Z 255)) eqn:Eb.
  - exact H.
  - apply flt_fle, Ea.
  - pose proof (fle_flt_trans _ _ _ H Eb). congruence.
  - vm_compute. reflexivity.
Qed.

Lemma py_min_255_le a : fle (py_min_255 a) (of_Z 255) = true.
Proof.
  unfold py_min_255. destruct (flt a (of_Z 255)) eqn:E.
  - apply flt_fle, E.
  - vm_compute. reflexivity.
Qed.

Lemma py_int_mono a b k1 k2 :
  fle a b = true -> py_int a = Ok k1 -> py_int b = Ok k2 -> (k1 <= k2)%Z.
Proof.
  destruct a as [x| | |], b as [y| | |]; try discriminate.
  intros H [= <-] [= <-]. apply Qtrunc_mono. now apply fle_Fin.
Qed.

Lemma fle_finite l a h :
  fle (Fin l) a = true -> fle a (Fin h) = true -> exists q, a = Fin q /\ l <= q /\ q <= h.
Proof.
  destruct a as [q| | |]; try discriminate. intros H1 H2.
  exists q. split; [reflexivity|]. split; now apply fle_Fin.
Qed.

End FloatSteps.

Section PixelIndex.
Import AsciiConverter.
Local Open Scope Z_scope.

Lemma raw_index_scaled n i inv b :
  raw_index n i inv b
  = (i' ← py_float i; m ← py_float (n - 1);
     py_int (scaled (py_min_255 (fmul i' b)) m inv)).
Proof.
  unfold raw_index, scaled.
  destruct (py_float i); cbn [mbind res_bind]; [|reflexivity].
  destruct (py_float (n - 1)); cbn [mbind res_bind]; [|reflexivity].
  destruct inv; reflexivity.
Qed.

Lemma pos_fin_255 : pos_fin (of_Z 255) = true.
Proof. vm_compute. reflexivity. Qed.

Lemma scaled_mono a b m :
  pos_fin m = true -> fle a b = true ->
  fle (scaled a m false) (scaled b m false) = true
  /\ fle (scaled b m true) (scaled a m true) = true.
Proof.
  intros Hm H. unfold scaled. split.
  - apply fmul_mono_pos; [exact Hm|]. apply fdiv_mono_pos; [exact pos_fin_255 | exact H].
  - apply fmul_mono_pos; [exact Hm|]. apply fdiv_mono_pos; [exact pos_fin_255|].
    rewrite of_Z_255. apply fsub_anti, H.
Qed.

(** The last index [m = n - 1] as a float: [mq] is its exact value. *)
Variables (n : Z) (mq : Q).
Hypothesis n_range : 1 <= n <= 2 ^ 53.
Hypothesis mq_exact : (mq == inject_Z (n - 1))%Q.

Lemma mq_nonneg : (0 <= mq)%Q.
Proof. rewrite mq_exact. change 0%Q with (inject_Z 0). rewrite <- Zle_Qle. lia. Qed.

Lemma pos_fin_m : 2 <= n -> pos_fin (Fin mq) = true.
Proof.
  intros H. unfold pos_fin. apply andb_true_iff. split; [|reflexivity].
  apply flt_Fin. rewrite mq_exact. change 0%Q with (inject_Z 0). rewrite <- Zlt_Qlt. lia.
Qed.

Lemma fmul_0_m : fmul (Fin 0) (Fin mq) = Fin 0.
Proof. cbn [fmul]. apply rnd_zero. ring. Qed.

Lemma fmul_1_m : exists tq, fmul (Fin 1) (Fin mq) = Fin tq /\ (tq == inject_Z (n - 1))%Q.
Proof.
  cbn [fmul]. destruct (rnd_Z (n - 1)) as (lq & El & Hl); [lia|].
  destruct (rnd_between (inject_Z (n - 1)) (inject_Z (n - 1)) (1 * mq) lq lq)
    as (tq & Et & H1 & H2); try assumption.
  - rewrite mq_exact. lra.
  - rewrite mq_exact. lra.
  - exists tq. split; [exact Et|]. rewrite <- Hl. apply Qle_antisym; assumption.
Qed.

Lemma scaled_0_false : scaled (Fin 0) (Fin mq) false = Fin 0.
Proof.
  unfold scaled.
  replace (fdiv (Fin 0) (of_Z 255)) with (Fin 0) by (vm_compute; reflexivity).
  apply fmul_0_m.
Qed.

Lemma scaled_255_false : scaled (of_Z 255) (Fin mq) false = fmul (Fin 1) (Fin mq).
Proof.
  unfold scaled.
  replace (fdiv (of_Z 255) (of_Z 255)) with (Fin 1) by (vm_compute; reflexivity).
  reflexivity.
Qed.

Lemma scaled_0_true : scaled (Fin 0) (Fin mq) true = fmul (Fin 1) (Fin mq).
Proof.
  unfold scaled.
  replace (fdiv (fsub (of_Z 255) (Fin 0)) (of_Z 255)) with (Fin 1) by (vm_compute; reflexivity).
  reflexivity.
Qed.

Lemma scaled_255_true : scaled (of_Z 255) (Fin mq) true = Fin 0.
Proof.
  unfold scaled.
  replace (fdiv (fsub (of_Z 255) (of_Z 255)) (of_Z 255)) with (Fin 0)
    by (vm_compute; reflexivity).
  apply fmul_0_m.
Qed.

(** An adjusted intensity that is not positive selects the first index, or
    the last one when inverted. *)
Lemma scaled_low a k :
  2 <= n -> fle a (Fin 0) = true ->
  (py_int (scaled a (Fin mq) false) = Ok k -> k <= 0)
  /\ (py_int (scaled a (Fin mq) true) = Ok k -> n - 1 <= k).
Proof.
  intros H2 Ha. destruct (scaled_mono a (Fin 0) (Fin mq) (pos_fin_m H2) Ha) as [M1 M2].
  split; intros E.
  - rewrite scaled_0_false in M1.
    apply (py_int_mono _ _ k 0 M1 E). reflexivity.
  - rewrite scaled_0_true in M2. destruct fmul_1_m as (tq & Et & Ht). rewrite Et in M2.
    assert (G : py_int (Fin tq) = Ok (n - 1)).
    { cbn. f_equal. rewrite (Qtrunc_comp _ _ Ht). apply Qtrunc_Z. }
    apply (py_int_mono _ _ (n - 1) k M2 G E).
Qed.

(** An adjusted intensity within [0, 255] gives a finite scaled value. *)
Lemma scaled_finite a inv :
  fle (Fin 0) a = true -> fle a (of_Z 255) = true ->
  exists q, scaled a (Fin mq) inv = Fin q.
Proof.
  intros H0 H255. rewrite of_Z_255 in H255.
  destruct (fle_finite _ _ _ H0 H255) as (aq & -> & Ha0 & Ha255).
  pose proof mq_nonneg as Hm0.
  assert (Hm53 : (mq <= inject_Z (2 ^ 53))%Q) by (rewrite mq_exact, <- Zle_Qle; lia).
  assert (Last : forall dq : Q, (0 <= dq)%Q -> (dq <= 1)%Q ->
                   exists q, fmul (Fin dq) (Fin mq) = Fin q).
  { intros dq D0 D1. cbn [fmul].
    destruct (rnd_between 0 (inject_Z (2 ^ 53)) (dq * mq) 0 (inject_Z (2 ^ 53)))
      as (q & Eq & _); [| |vm_compute; reflexivity|vm_compute; reflexivity|eauto].
    - apply Qmult_le_0_compat; assumption.
    - apply Qle_trans with (1 * mq)%Q; [apply Qmult_le_compat_r; assumption | lra]. }
  unfold scaled. rewrite of_Z_255. destruct inv.
  - unfold fsub. cbn [fneg fadd].
    destruct (rnd_between (255 + - 255) (255 + - 0) (255 + - aq) 0 255)
      as (sq & Es & S0 & S255); [lra|lra|vm_compute; reflexivity|vm_compute; reflexivity|].
    rewrite Es. cbn [fdiv].
    replace (Qeq_bool 255 0) with false by reflexivity.
    destruct (rnd_between (0 / 255) (255 / 255) (sq / 255) 0 1)
      as (dq & Ed & D0 & D1); [| |vm_compute; reflexivity|vm_compute; reflexivity|].
    + unfold Qdiv. apply Qmult_le_compat_r; [exact S0 | discriminate].
    + unfold Qdiv. apply Qmult_le_compat_r; [exact S255 | discriminate].
    + rewrite Ed. apply Last; assumption.
  - cbn [fdiv]. replace (Qeq_bool 255 0) with false by reflexivity.
    destruct (rnd_between (0 / 255) (255 / 255) (aq / 255) 0 1)
      as (dq & Ed & D0 & D1); [| |vm_compute; reflexivity|vm_compute; reflexivity|].
    + unfold Qdiv. apply Qmult_le_compat_r; [exact Ha0 | discriminate].
    + unfold Qdiv. apply Qmult_le_compat_r; [exact Ha255 | discriminate].
    + rewrite Ed. apply Last; assumption.
Qed.

(** With a boost that is not finite the call either raises or works on the
    adjusted intensity 255. *)
Lemma special_boost (iq : Q) (boost : float) (inv : bool) (k : Z) :
  (0 <= iq)%Q -> boost = NaN \/ boost = PInf \/ boost = NInf ->
  py_int (scaled (py_min_255 (fmul (Fin iq) boost)) (Fin mq) inv) = Ok k ->
  py_min_255 (fmul (Fin iq) boost) = of_Z 255.
Proof.
  intros Hi [-> | [-> | ->]]; cbn [fmul].
  - reflexivity.
  - destruct (Qcompare_spec iq 0) as [C|C|C]; cbn [inf_of_sign]; intros _.
    + reflexivity.
    + lra.
    + unfold py_min_255. rewrite of_Z_255. reflexivity.
  - destruct (Qcompare_spec 0 iq) as [C|C|C]; cbn [inf_of_sign].
    + reflexivity.
    + unfold py_min_255, scaled. rewrite of_Z_255. cbn [flt].
      destruct inv; cbn [fsub fneg fadd fdiv fmul];
        replace (Qle_bool 0 255) with true by reflexivity; cbn [fmul].
      * destruct (mq ?= 0)%Q; discriminate.
      * destruct (0 ?= mq)%Q; discriminate.
    + lra.
Qed.

End PixelIndex.

Section PixelTheorems.
Import AsciiConverter.
Local Open Scope Z_scope.

Lemma intensity_range pixel i :
  valid_pixel pixel -> intensity pixel = Ok i -> 0 <= i <= 255.
Proof.
  unfold valid_pixel, intensity, rgb_of_pixel. intros V.
  destruct (3 <=? len pixel).
  - destruct pixel as [|r [|g [|b rest]]]; try discriminate.
    inversion_clear V as [|? ? Hr V1]. inversion_clear V1 as [|? ? Hg V2].
    inversion_clear V2 as [|? ? Hb _]. intros [= <-]. lia.
  - destruct pixel as [|v rest]; try discriminate.
    inversion_clear V as [|? ? Hv _]. intros [= <-]. lia.
Qed.

Lemma char_index_intensity n pixel inv boost :
  char_index n pixel inv boost
  = (i ← intensity pixel; k ← raw_index n i inv boost; mret (Z.max 0 (Z.min k (n - 1)))).
Proof.
  unfold char_index, intensity.
  destruct (rgb_of_pixel pixel) as [[[r g] b]|]; reflexivity.
Qed.

Lemma spec_index_intensity rounding n pixel inv boost :
  spec_index rounding n pixel inv boost
  = (i ← intensity pixel; i' ← py_float i; m ← py_float (n - 1);
     k ← rounding (scaled (clamp (fmul i' boost) (of_Z 0) (of_Z 255)) m inv);
     mret (Z.max 0 (Z.min k (n - 1)))).
Proof.
  unfold spec_index, intensity.
  destruct (rgb_of_pixel pixel) as [[[r g] b]|]; reflexivity.
Qed.

Lemma py_min_255_0 : py_min_255 (Fin 0) = Fin 0.
Proof. vm_compute. reflexivity. Qed.

Lemma intensity_float i :
  0 <= i <= 255 -> exists iq, py_float i = Ok (Fin iq) /\ (iq == inject_Z i)%Q /\ (0 <= iq)%Q.
Proof.
  intros Hi. destruct (py_float_exact i) as (iq & E & Hq); [lia|].
  exists iq. split; [exact E|]. split; [exact Hq|].
  rewrite Hq. change 0%Q with (inject_Z 0). rewrite <- Zle_Qle. lia.
Qed.

(** The adjusted intensity under a finite negative boost is not positive. *)
Lemma adjusted_negative_boost iq b :
  (0 <= iq)%Q -> (b <= 0)%Q -> fle (py_min_255 (fmul (Fin iq) (Fin b))) (Fin 0) = true.
Proof.
  intros Hi Hb. rewrite <- py_min_255_0. apply py_min_255_mono.
  replace (Fin 0) with (fmul (Fin 0) (Fin b)) by (cbn [fmul]; apply rnd_zero; ring).
  apply fmul_Fin_anti; assumption.
Qed.

Lemma adjusted_nonneg_boost iq b :
  (0 <= iq)%Q -> (0 <= b)%Q -> fle (Fin 0) (py_min_255 (fmul (Fin iq) (Fin b))) = true.
Proof.
  intros Hi Hb. rewrite <- py_min_255_0 at 1. apply py_min_255_mono.
  replace (Fin 0) with (fmul (Fin 0) (Fin b)) by (cbn [fmul]; apply rnd_zero; ring).
  apply fmul_Fin_mono; assumption.
Qed.

Lemma raw_index_monotone n i1 i2 inv boost k1 k2 :
  1 <= n <= 2 ^ 53 -> 0 <= i1 -> i1 <= i2 -> i2 <= 255 ->
  raw_index n i1 inv boost = Ok k1 -> raw_index n i2 inv boost = Ok k2 ->
  if inv then Z.max 0 (Z.min k2 (n - 1)) <= Z.max 0 (Z.min k1 (n - 1))
  else Z.max 0 (Z.min k1 (n - 1)) <= Z.max 0 (Z.min k2 (n - 1)).
Proof.
  intros Hn H0 H12 H255.
  destruct (Z.eq_dec n 1) as [->|N1]; [intros _ _; destruct inv; lia|].
  rewrite !raw_index_scaled.
  destruct (intensity_float i1) as (q1 & -> & E1 & P1); [lia|].
  destruct (intensity_float i2) as (q2 & -> & E2 & P2); [lia|].
  destruct (py_float_exact (n - 1)) as (mq & -> & Em); [lia|].
  cbn [mbind res_bind].
  assert (Q12 : (q1 <= q2)%Q) by (rewrite E1, E2, <- Zle_Qle; exact H12).
  assert (Pm : pos_fin (Fin mq) = true) by (apply (pos_fin_m n mq); [exact Em | lia]).
  destruct boost as [b| | |].
  - destruct (Qlt_le_dec b 0) as [Hb|Hb].
    + intros R1 R2.
      destruct (scaled_low n mq Hn Em _ k1 ltac:(lia)
                  (adjusted_negative_boost q1 b P1 ltac:(lra))) as [A1 B1].
      destruct (scaled_low n mq Hn Em _ k2 ltac:(lia)
                  (adjusted_negative_boost q2 b P2 ltac:(lra))) as [A2 B2].
      destruct inv; [specialize (B1 R1); specialize (B2 R2) | specialize (A1 R1); specialize (A2 R2)]; lia.
    + intros R1 R2.
      assert (M : fle (py_min_255 (fmul (Fin q1) (Fin b))) (py_min_255 (fmul (Fin q2) (Fin b))) = true)
        by (apply py_min_255_mono, fmul_Fin_mono; assumption).
      destruct (scaled_mono _ _ (Fin mq) Pm M) as [S1 S2].
      destruct inv.
      * pose proof (py_int_mono _ _ _ _ S2 R2 R1). lia.
      * pose proof (py_int_mono _ _ _ _ S1 R1 R2). lia.
  - intros R1 R2.
    rewrite (special_boost mq q1 PInf inv k1 P1) in R1 by auto.
    rewrite (special_boost mq q2 PInf inv k2 P2) in R2 by auto.
    assert (k1 = k2) by congruence. destruct inv; lia.
  - intros R1 R2.
    rewrite (special_boost mq q1 NInf inv k1 P1) in R1 by auto.
    rewrite (special_boost mq q2 NInf inv k2 P2) in R2 by auto.
    assert (k1 = k2) by congruence. destruct inv; lia.
  - intros R1 R2.
    rewrite (special_boost mq q1 NaN inv k1 P1) in R1 by auto.
    rewrite (special_boost mq q2 NaN inv k2 P2) in R2 by auto.
    assert (k1 = k2) by congruence. destruct inv; lia.
Qed.

Lemma raw_index_total n i inv boost :
  1 <= n <= 2 ^ 53 -> 0 <= i <= 255 -> nonneg_fin boost = true ->
  exists k, raw_index n i inv boost = Ok k.
Proof.
  intros Hn Hi Hb. rewrite raw_index_scaled.
  destruct (intensity_float i Hi) as (iq & -> & Ei & Pi).
  destruct (py_float_exact (n - 1)) as (mq & -> & Em); [lia|].
  cbn [mbind res_bind].
  unfold nonneg_fin in Hb. apply andb_true_iff in Hb as [B0 B1].
  destruct boost as [b| | |]; try discriminate. apply fle_Fin in B0.
  destruct (scaled_finite n mq Hn Em (py_min_255 (fmul (Fin iq) (Fin b))) inv) as (q & ->).
  - apply adjusted_nonneg_boost; assumption.
  - apply py_min_255_le.
  - eexists. reflexivity.
Qed.

Lemma char_index_total n pixel inv boost :
  1 <= n <= 2 ^ 53 -> valid_pixel pixel -> pixel <> [] -> nonneg_fin boost = true ->
  exists k, char_index n pixel inv boost = Ok k.
Proof.
  intros Hn V Ne Hb. rewrite char_index_intensity.
  destruct (intensity pixel) as [i|e] eqn:Ei.
  - destruct (raw_index_total n i inv boost Hn (intensity_range _ _ V Ei) Hb) as (k & Ek).
    cbn [mbind res_bind]. rewrite Ek. eexists. reflexivity.
  - exfalso. unfold intensity, rgb_of_pixel in Ei.
    destruct (3 <=? len pixel) eqn:E3.
    + destruct pixel as [|r [|g [|b rest]]]; try discriminate; cbn in E3; lia.
    + destruct pixel; [congruence | discriminate].
Qed.

End PixelTheorems.

Section PixelClaims.
Import AsciiConverter.
Local Open Scope Z_scope.

(** C1 (as stated, refuted): for the mid-gray pixel and the two-character
    ramp the source selects index 0, and rounding to nearest would select 1. *)
Lemma char_index_not_rounded :
  char_index 2 [128; 128; 128] false (of_Z 1) = Ok 0
  /\ spec_index py_round 2 [128; 128; 128] false (of_Z 1) = Ok 1.
Proof. split; vm_compute; reflexivity. Qed.

(** C1 (amended): for every pixel with channels in [0, 255], every ramp of
    size N >= 2 and every brightness boost, an index that [pixel_to_ascii]
    selects is the one of the specification's formula with truncation toward
    zero in place of rounding: adjusted = clamp(max(R,G,B) * boost, 0, 255),
    index = int(adjusted / 255 * (N-1)), or int((255 - adjusted) / 255 * (N-1))
    when inverted, clamped to [0, N-1]; and for a finite boost that is not
    negative an index is selected. *)
Theorem char_index_truncates (n : Z) (pixel : list Z) (invert : bool) (boost : float) :
  2 <= n <= 2 ^ 53 -> valid_pixel pixel ->
  (forall k, char_index n pixel invert boost = Ok k ->
             spec_index py_int n pixel invert boost = Ok k)
  /\ (pixel <> [] -> nonneg_fin boost = true ->
      exists k, char_index n pixel invert boost = Ok k).
Proof.
  intros Hn V. split; [|intros Ne Hb; apply char_index_total; [lia|assumption..]].
  intros k. rewrite char_index_intensity, spec_index_intensity.
  destruct (intensity pixel) as [i|e] eqn:Ei; [|discriminate].
  pose proof (intensity_range _ _ V Ei) as Hi.
  cbn [mbind res_bind]. rewrite raw_index_scaled.
  destruct (intensity_float i Hi) as (iq & -> & Eq & Pi).
  destruct (py_float_exact (n - 1)) as (mq & -> & Em); [lia|].
  cbn [mbind res_bind].
  set (p := fmul (Fin iq) boost).
  destruct (flt p (of_Z 0)) eqn:Ep.
  - (* a negative product: the source keeps it, the formula clamps it to 0 *)
    assert (Lp : fle (py_min_255 p) (Fin 0) = true).
    { rewrite <- py_min_255_0. apply py_min_255_mono. rewrite <- of_Z_0. apply flt_fle, Ep. }
    assert (Hn1 : 1 <= n <= 2 ^ 53) by lia.
    unfold clamp. rewrite Ep, of_Z_0.
    destruct (py_int (scaled (py_min_255 p) (Fin mq) invert)) as [j|e] eqn:Ej; [|discriminate].
    cbn [mbind res_bind mret res_ret]. intros [= <-].
    destruct (scaled_low n mq Hn1 Em (py_min_255 p) j ltac:(lia) Lp) as [A B].
    destruct invert.
    + specialize (B Ej). rewrite scaled_0_true.
      destruct (fmul_1_m n mq Hn1 Em) as (tq & -> & Ht).
      cbn [py_int mbind res_bind]. rewrite (Qtrunc_comp _ _ Ht), Qtrunc_Z.
      f_equal. lia.
    + specialize (A Ej). rewrite scaled_0_false.
      cbn [py_int mbind res_bind]. change (Qtrunc 0) with 0. f_equal. lia.
  - (* otherwise the two adjusted intensities are the same float *)
    unfold clamp. rewrite Ep. fold (py_min_255 p). trivial.
Qed.

Lemma char_index_truncates_witness :
  spec_index py_int 10 [100; 20; 30] true (lit 15 10) = Ok 3
  /\ exists k, char_index 10 [100; 20; 30] true (lit 15 10) = Ok k.
Proof.
  assert (V : valid_pixel [100; 20; 30]) by (repeat constructor; lia).
  destruct (char_index_truncates 10 [100; 20; 30] true (lit 15 10) ltac:(lia) V) as [H1 H2].
  split.
  - apply H1. vm_compute. reflexivity.
  - apply H2; [discriminate | vm_compute; reflexivity].
Defined.

(** C2 (as stated, refuted): on the ten-character ramp the index of black is
    0 and the index of white is 9; inverted, 9 and 0. The index grows with
    the intensity when [invert] is off and falls when it is on. *)
Lemma char_index_grows :
  char_index 10 [0; 0; 0] false (of_Z 1) = Ok 0
  /\ char_index 10 [255; 255; 255] false (of_Z 1) = Ok 9
  /\ char_index 10 [0; 0; 0] true (of_Z 1) = Ok 9
  /\ char_index 10 [255; 255; 255] true (of_Z 1) = Ok 0.
Proof. repeat split; vm_compute; reflexivity. Qed.

(** C2 (amended): for all valid pixels and a ramp of size N, the index chosen
    by [pixel_to_ascii] is in [0, N-1]; with ramp, boost and flags fixed it
    is monotonically non-decreasing in the intensity max(R,G,B) when
    [invert] is off and non-increasing when it is on; and for a finite boost
    that is not negative an index is chosen. *)
Theorem char_index_bounds_monotone (n : Z) (p1 p2 : list Z) (invert : bool) (boost : float)
    (i1 i2 k1 k2 : Z) :
  1 <= n <= 2 ^ 53 -> valid_pixel p1 -> valid_pixel p2 ->
  intensity p1 = Ok i1 -> intensity p2 = Ok i2 -> i1 <= i2 ->
  char_index n p1 invert boost = Ok k1 -> char_index n p2 invert boost = Ok k2 ->
  0 <= k1 <= n - 1 /\ 0 <= k2 <= n - 1
  /\ (if invert then k2 <= k1 else k1 <= k2)
  /\ (nonneg_fin boost = true ->
      forall p, valid_pixel p -> p <> [] -> exists k, char_index n p invert boost = Ok k).
Proof.
  intros Hn V1 V2 E1 E2 H12. rewrite !char_index_intensity, E1, E2.
  cbn [mbind res_bind].
  destruct (raw_index n i1 invert boost) as [j1|] eqn:R1; [|discriminate].
  destruct (raw_index n i2 invert boost) as [j2|] eqn:R2; [|discriminate].
  cbn [mbind res_bind mret res_ret]. intros [= <-] [= <-].
  pose proof (intensity_range _ _ V1 E1) as Hi1.
  pose proof (intensity_range _ _ V2 E2) as Hi2.
  pose proof (raw_index_monotone n i1 i2 invert boost j1 j2 Hn ltac:(lia) H12 ltac:(lia) R1 R2) as M.
  split; [lia|]. split; [lia|]. split; [exact M|].
  intros Hb p Vp Np. apply char_index_total; assumption.
Qed.

Lemma char_index_bounds_monotone_witness :
  0 <= 2 <= 9 /\ 0 <= 5 <= 9 /\ 2 <= 5
  /\ (nonneg_fin (lit 15 10) = true ->
      forall p, valid_pixel p -> p <> [] ->
                exists k, char_index 10 p false (lit 15 10) = Ok k).
Proof.
  apply (char_index_bounds_monotone 10 [40; 50; 20] [100; 20; 30] false (lit 15 10) 50 100 2 5);
    try (repeat constructor; lia); try lia; vm_compute; reflexivity.
Defined.

(** The glyph returned outside the directional mode is the ramp character
    at the chosen index. *)
Lemma pixel_to_ascii_glyph (arctan2 : Z -> Z -> float) (self : t) (pixel : list Z)
    (x y : Z) (image_array : option ndarray) (invert : bool) (boost : float) (k : Z) (c : glyph) :
  directional_mode self = false ->
  char_index (len (char_set self)) pixel invert boost = Ok k ->
  char_set self !! Z.to_nat k = Some c ->
  pixel_to_ascii arctan2 self pixel x y image_array invert boost = c.
Proof.
  intros Hd Hk Hc. unfold pixel_to_ascii. rewrite Hk. cbn [mbind res_bind].
  rewrite Hc, Hd. reflexivity.
Qed.

(** Black gives the first character of the standard ramp and white the
    last one; a malformed pixel gives the fallback blank. *)
Example pixel_to_ascii_standard :
  pixel_to_ascii arctan2_coarse (init None) [0; 0; 0] 0 0 None false (of_Z 1) = "@"%string
  /\ pixel_to_ascii arctan2_coarse (init None) [255; 255; 255] 0 0 None false (of_Z 1)
     = " "%string
  /\ pixel_to_ascii arctan2_coarse (init None) [] 0 0 None false (of_Z 1) = " "%string.
Proof. repeat split; vm_compute; reflexivity. Qed.

End PixelClaims.

(** ** Rounding error *)

Section RoundingError.
Local Open Scope Q_scope.




Lemma theta_pow_ge1 k : 1 <= theta ^ Z.of_nat k.
Proof. apply Qpower_1_le; [discriminate | lia]. Qed.




Lemma close_sym k x y : close k x y -> close k y x.
Proof. intros (H1 & H2 & H3 & H4). unfold close. auto. Qed.














End RoundingError.

(** ** The aspect ratio of the grid *)

Section AspectRatio.
Import ImageProcessor.
Local Open Scope Q_scope.






























(** On that canvas the raw grid has 266 x 90 cells and is narrower than the
    target; the returned grid has one row less and is wider. *)
Example full_hd_grid :
  raw_grid 1920 1080 (Fin 12) = Ok (266, 90)%Z
  /\ calculate_ascii_dimensions (Some 1920%Z) (Some 1080%Z) (Fin 12) true = Ok (Some (266, 89)%Z)
  /\ exists cw, fmul (Fin 12) (lit 6 10) = Fin cw
        /\ rendered_ratio cw 12 266 90 * slack < target_ratio 1920 1080
        /\ target_ratio 1920 1080 < rendered_ratio cw 12 266 89.
Proof.
  split; [vm_compute; reflexivity|]. split; [vm_compute; reflexivity|].
  eexists. split; [vm_compute; reflexivity|]. split; vm_compute; reflexivity.
Qed.

End AspectRatio.
